(** * viirs-watcher: a shallow embedding of the group tracker and the pipeline engine

    The development follows the two Go packages of the repository:

    - package [pipeline] (src/pipeline/pipeline.go): templated variables,
      coercion of rendered text to scalars, the step-local context with
      its write-back onto the shared context, and the command tokenizer
      that is written inline in [Step.Exec];
    - package [main] (src/viirs-watcher.go): file groups, [AnyChanged],
      the body of the [filepath.Walk] callback of [Watcher.Watch],
      [readConfig] and [main].

    Go maps are [gmap]s; a Go [string] is a sequence of bytes, here a
    [string] of 8-bit characters; [time.Time] is an integer count of
    nanoseconds since Go's zero time.  The Go standard library functions
    the code calls are written out after their documented behaviour where
    they are small ([strings], [path/filepath], [unicode/utf8],
    [strconv.ParseBool], [strconv.ParseInt]), and are taken as
    parameters where they are not: [text/template], [strconv.ParseFloat]
    and [os/exec] through the interface [GoRuntime], the file system and
    the configuration file through the records [FS] and [Startup]. *)

From Stdlib Require Import ZArith Lia Ascii String DecimalString.
From stdpp Require Import base decidable option list strings gmap.

Open Scope string_scope.
Open Scope list_scope.
Open Scope Z_scope.

(** ** Bytes, runes and strings *)

Definition byte_of (c : ascii) : Z := Z.of_N (Ascii.N_of_ascii c).
Definition ascii_of (b : Z) : ascii := Ascii.ascii_of_N (Z.to_N (b mod 256)).

Fixpoint bytes_of (s : string) : list Z :=
  match s with
  | EmptyString => []
  | String c r => byte_of c :: bytes_of r
  end.

Fixpoint string_of (bs : list Z) : string :=
  match bs with
  | [] => EmptyString
  | b :: r => String (ascii_of b) (string_of r)
  end.

(** A rune is a Unicode code point (Go: [int32]). *)
Definition rune := Z.

Definition RuneError : rune := 65533.   (* U+FFFD *)

Definition in_range (lo hi b : Z) : bool := (lo <=? b) && (b <=? hi).

(** [utf8.DecodeRune]: the first rune of a byte sequence and its width.
    The leading byte selects the width and the accepted range of the
    second byte; any violation yields ([RuneError], 1). *)
Definition DecodeRune (p : list Z) : rune * nat :=
  match p with
  | [] => (RuneError, 0%nat)
  | p0 :: t =>
    if p0 <? 128 then (p0, 1%nat)
    else
      (* (width, lowest and highest accepted second byte) *)
      let cls : option (nat * Z * Z) :=
        if in_range 194 223 p0 then Some (2%nat, 128, 191)
        else if p0 =? 224 then Some (3%nat, 160, 191)
        else if in_range 225 236 p0 then Some (3%nat, 128, 191)
        else if p0 =? 237 then Some (3%nat, 128, 159)
        else if in_range 238 239 p0 then Some (3%nat, 128, 191)
        else if p0 =? 240 then Some (4%nat, 144, 191)
        else if in_range 241 243 p0 then Some (4%nat, 128, 191)
        else if p0 =? 244 then Some (4%nat, 128, 143)
        else None in
      match cls with
      | None => (RuneError, 1%nat)
      | Some (sz, lo, hi) =>
        if (length p <? sz)%nat then (RuneError, 1%nat)
        else
          match t with
          | b1 :: t1 =>
            if negb (in_range lo hi b1) then (RuneError, 1%nat)
            else if (sz <=? 2)%nat
            then (Z.lor (Z.shiftl (Z.land p0 31) 6) (Z.land b1 63), 2%nat)
            else
              match t1 with
              | b2 :: t2 =>
                if negb (in_range 128 191 b2) then (RuneError, 1%nat)
                else if (sz <=? 3)%nat
                then (Z.lor (Z.lor (Z.shiftl (Z.land p0 15) 12)
                                   (Z.shiftl (Z.land b1 63) 6))
                            (Z.land b2 63), 3%nat)
                else
                  match t2 with
                  | b3 :: _ =>
                    if negb (in_range 128 191 b3) then (RuneError, 1%nat)
                    else (Z.lor (Z.lor (Z.lor (Z.shiftl (Z.land p0 7) 18)
                                              (Z.shiftl (Z.land b1 63) 12))
                                       (Z.shiftl (Z.land b2 63) 6))
                                (Z.land b3 63), 4%nat)
                  | [] => (RuneError, 1%nat)
                  end
              | [] => (RuneError, 1%nat)
              end
          | [] => (RuneError, 1%nat)
          end
      end
  end.

(** The runes [bytes.Buffer.ReadRune] returns, one call after the other,
    until it reports [io.EOF].  [skip] counts the bytes of the rune read
    last that still lie ahead (the buffer offset advanced by its width). *)
Fixpoint ReadRunes_from (skip : nat) (buf : list Z) : list rune :=
  match buf with
  | [] => []
  | _ :: rest =>
    match skip with
    | S k => ReadRunes_from k rest
    | O => let '(r, sz) := DecodeRune buf in r :: ReadRunes_from (sz - 1) rest
    end
  end.

Definition ReadRunes (s : string) : list rune := ReadRunes_from 0 (bytes_of s).

(** [utf8.EncodeRune], as used by [bytes.Buffer.WriteRune]. *)
Definition EncodeRune (r : rune) : list Z :=
  if in_range 0 127 r then [r]
  else if in_range 128 2047 r then
    [Z.lor 192 (Z.shiftr r 6); Z.lor 128 (Z.land r 63)]
  else
    let r := if (r <? 0) || (1114111 <? r) || in_range 55296 57343 r
             then RuneError else r in
    if r <=? 65535 then
      [Z.lor 224 (Z.shiftr r 12); Z.lor 128 (Z.land (Z.shiftr r 6) 63);
       Z.lor 128 (Z.land r 63)]
    else
      [Z.lor 240 (Z.shiftr r 18); Z.lor 128 (Z.land (Z.shiftr r 12) 63);
       Z.lor 128 (Z.land (Z.shiftr r 6) 63); Z.lor 128 (Z.land r 63)].

Definition WriteRune (acc : string) (r : rune) : string :=
  acc +:+ string_of (EncodeRune r).

(** ** The command tokenizer of [Step.Exec] (pipeline.go, lines 138-194) *)

Inductive lex_state := DEFAULT | IN_SQ | IN_DQ | ESCAPED.

Record lexer := Lexer {
  state : lex_state;
  acc : string;
  split : list string
}.

(** The closure [wrap]: append the accumulator to [split] when it is not
    empty, and reset it.  [state] is not assigned. *)
Definition wrap (l : lexer) : lexer :=
  {| state := state l;
     acc := "";
     split := if (String.length (acc l) =? 0)%nat then split l
              else split l ++ [acc l] |}.

Definition write (l : lexer) (r : rune) : lexer :=
  {| state := state l; acc := WriteRune (acc l) r; split := split l |}.

Definition enter (s : lex_state) (l : lexer) : lexer :=
  {| state := s; acc := acc l; split := split l |}.

(** One iteration of the loop body, for the rune [r]. *)
Definition lex_rune (l : lexer) (r : rune) : lexer :=
  if (r =? RuneError) || (r =? 0) then l
  else
    match state l with
    | DEFAULT =>
      if (r =? 32) || (r =? 10) || (r =? 9) || (r =? 13) then wrap l
      else if r =? 39 then enter IN_SQ l
      else if r =? 34 then enter IN_DQ l
      else if r =? 92 then enter ESCAPED l
      else write l r
    | IN_SQ => if r =? 39 then wrap l else write l r
    | IN_DQ => if r =? 34 then wrap l else write l r
    | ESCAPED => write l r
    end.

Definition lex_init : lexer := {| state := DEFAULT; acc := ""; split := [] |}.

(** The whole loop: its first iteration runs on the zero rune, before
    anything is read; then one iteration per rune read; [wrap] at
    [io.EOF]. *)
Definition lex_run (text : string) : lexer :=
  fold_left lex_rune (ReadRunes text) (lex_rune lex_init 0).

Definition tokenize (text : string) : list string :=
  split (wrap (lex_run text)).

(** ** [strings] and [path/filepath] (Unix), as far as the code uses them *)

Definition HasPrefix (s prefix : string) : bool := String.prefix prefix s.

(** [strings.Split s sep] for a one-byte separator: one more field than
    there are separators, so never an empty list. *)
Fixpoint Split (s : string) (sep : ascii) : list string :=
  match s with
  | EmptyString => [""]
  | String c r =>
    if Ascii.eqb c sep then "" :: Split r sep
    else match Split r sep with
         | h :: t => String c h :: t
         | [] => [String c ""]
         end
  end.

Definition Join (parts : list string) (sep : string) : string :=
  String.concat sep parts.

Fixpoint has_separator (s : string) : bool :=
  match s with
  | EmptyString => false
  | String c r => Ascii.eqb c "/" || has_separator r
  end.

(** [filepath.Ext]: the suffix that starts at the last dot of the last
    path element, or the empty string.  Go scans backwards from the end
    and stops at a separator; read forwards, the candidate is replaced
    at each dot and dropped at each separator. *)
Fixpoint Ext_from (cand path : string) : string :=
  match path with
  | EmptyString => cand
  | String c r =>
    if Ascii.eqb c "/" then Ext_from "" r
    else if Ascii.eqb c "." then Ext_from path r
    else Ext_from cand r
  end.

Definition Ext (path : string) : string := Ext_from "" path.

(** [filepath.Base]: the last element of the path, trailing separators
    removed; "." for the empty path and "/" for a path of separators. *)
Definition Base (path : string) : string :=
  if String.eqb path "" then "."
  else match filter (λ e, e ≠ "") (Split path "/") with
       | [] => "/"
       | e :: es => List.last es e
       end.

(** The directory half of [filepath.Split]: the path up to and including
    its last separator. *)
Fixpoint SplitDir (path : string) : string :=
  match path with
  | EmptyString => ""
  | String c r => if has_separator path then String c (SplitDir r) else ""
  end.

(** [strings.HasSuffix] and [strings.TrimSuffix]. *)
Definition HasSuffix (s suffix : string) : bool :=
  (String.length suffix <=? String.length s)%nat
  && String.eqb (substring (String.length s - String.length suffix)
                           (String.length suffix) s) suffix.

Definition TrimSuffix (s suffix : string) : string :=
  if HasSuffix s suffix
  then substring 0 (String.length s - String.length suffix) s
  else s.

(** ** [strconv] *)

Definition ParseBool (str : string) : option bool :=
  if bool_decide (str ∈ ["1"; "t"; "T"; "true"; "TRUE"; "True"]) then Some true
  else if bool_decide (str ∈ ["0"; "f"; "F"; "false"; "FALSE"; "False"])
  then Some false
  else None.

Fixpoint parse_digits (s : string) (n : Z) : option Z :=
  match s with
  | EmptyString => Some n
  | String c r =>
    let b := byte_of c in
    if in_range 48 57 b then parse_digits r (n * 10 + (b - 48)) else None
  end.

(** [strconv.ParseInt str 10 64]: an optional sign, then one or more
    decimal digits, the value within the signed 64-bit range; [None]
    stands for both of its errors (syntax, range). *)
Definition ParseInt (str : string) : option Z :=
  match str with
  | EmptyString => None
  | String c r =>
    let neg := Ascii.eqb c "-" in
    let body := if Ascii.eqb c "+" || neg then r else str in
    if String.eqb body "" then None
    else match parse_digits body 0 with
         | None => None
         | Some un =>
           let cutoff := 2 ^ 63 in
           if negb neg && (cutoff <=? un) then None
           else if neg && (cutoff <? un) then None
           else Some (if neg then - un else un)
         end
  end.

(** ** Values, errors and the rest of the Go runtime *)

(** What an [interface{}] holds in this program: the scalars YAML
    decodes to and the results of [Variable.Eval].  [F] is [float64]. *)
Inductive Value (F : Type) : Type :=
  | VNil
  | VBool (b : bool)
  | VInt (i : Z)
  | VFloat (f : F)
  | VString (s : string).
Arguments VNil {F}.
Arguments VBool {F} b.
Arguments VInt {F} i.
Arguments VFloat {F} f.
Arguments VString {F} s.

(** A Go [error], by its message. *)
Definition error := string.

Inductive result (A : Type) : Type :=
  | Ok (a : A)
  | Err (e : error).
Arguments Ok {A} a.
Arguments Err {A} e.

(** The error of [exec.Cmd.Output]: an [*exec.ExitError] carries the
    captured standard error. *)
Inductive exec_error :=
  | ExitError (msg : error) (Stderr : string)
  | SpawnError (msg : error).

(** The library calls that are not written out: [strconv.ParseFloat str 64],
    [template.New(name).Delims(l, r).Parse(text)], [Template.Execute] on
    a context map, and [exec.Command(cmd, args...).Output()]. *)
Class GoRuntime := {
  float64 : Type;
  ParseFloat : string → option float64;
  Template : Type;
  Template_Parse : string → string → string → string → result Template;
  Template_Execute : Template → gmap string (Value float64) → result string;
  Command_Output : string → list string → string * option exec_error
}.


(** ** Package [pipeline] *)

Definition lDelim : string := "((".
Definition rDelim : string := "))".

Definition NotAString : error := "Variable name not a string.".

Section pipeline.
Context `{GoRuntime}.

Local Abbreviation Value := (Value float64).
Local Abbreviation Ctx := (gmap string Value).

(** Go: [Variable] and [Variables]; [expression] is [None] for the nil
    pointer. *)
Record Var := {
  Var_Name : string;
  Var_Value : Value;
  Var_expression : option Template
}.

Abbreviation Vars := (list Var).

(** [Variables.UnmarshalYAML] on the decoded [yaml.MapSlice]: the only
    place that builds a [Variable]; [expression] is left nil. *)
Fixpoint Vars_UnmarshalYAML (s : list (Value * Value)) : result Vars :=
  match s with
  | [] => Ok []
  | (k, v) :: r =>
    match k with
    | VString k =>
      match Vars_UnmarshalYAML r with
      | Ok vars =>
        Ok ({| Var_Name := k; Var_Value := v; Var_expression := None |} :: vars)
      | Err e => Err e
      end
    | _ => Err NotAString
    end
  end.

(** [Variable.Prepare]: the receiver after the call and the error. *)
Definition Var_Prepare (v : Var) : Var * option error :=
  match Var_Value v with
  | VString val =>
    match Template_Parse (Var_Name v) lDelim rDelim val with
    | Err e => (v, Some e)
    | Ok t =>
      ({| Var_Name := Var_Name v; Var_Value := Var_Value v;
          Var_expression := Some t |}, None)
    end
  | _ => (v, None)
  end.

(** [Variable.Eval]. *)
Definition Var_Eval (v : Var) (ctx : Ctx) : result Value :=
  match Var_expression v with
  | None => Ok (Var_Value v)
  | Some expression =>
    match Template_Execute expression ctx with
    | Err e => Err e
    | Ok str =>
      match ParseBool str with
      | Some b => Ok (VBool b)
      | None =>
        match ParseInt str with
        | Some i => Ok (VInt i)
        | None =>
          match ParseFloat str with
          | Some f => Ok (VFloat f)
          | None => Ok (VString str)
          end
        end
      end
    end
  end.

Record Step := {
  Step_Name : string;
  Step_Variables : Vars;
  Step_Command : string;
  Step_command : option Template
}.

(** The loop [for i := range vars { vars[i].Prepare() }], which returns
    at the first error and leaves the later variables as they were. *)
Fixpoint Vars_Prepare (vars : Vars) : Vars * option error :=
  match vars with
  | [] => ([], None)
  | v :: r =>
    match Var_Prepare v with
    | (v', Some e) => (v' :: r, Some e)
    | (v', None) => let '(r', e) := Vars_Prepare r in (v' :: r', e)
    end
  end.

(** [Step.Prepare]. *)
Definition Step_Prepare (s : Step) : Step * option error :=
  let '(vars, e) := Vars_Prepare (Step_Variables s) in
  let s1 := {| Step_Name := Step_Name s; Step_Variables := vars;
               Step_Command := Step_Command s; Step_command := Step_command s |} in
  match e with
  | Some e => (s1, Some e)
  | None =>
    match Template_Parse (Step_Name s) lDelim rDelim (Step_Command s) with
    | Err e => (s1, Some e)
    | Ok c =>
      ({| Step_Name := Step_Name s; Step_Variables := vars;
          Step_Command := Step_Command s; Step_command := Some c |}, None)
    end
  end.

(** The first loop of [Step.EvalVariables]: a fresh map that receives
    every entry of [ctx]. *)
Definition copy_context (ctx : Ctx) : Ctx :=
  list_to_map (map_to_list ctx).

(** Its second loop.  Each variable is evaluated against [ctx], the map
    the caller passed, and stored into [nctx], the copy. *)
Fixpoint eval_local (vars : Vars) (ctx nctx : Ctx) : result Ctx :=
  match vars with
  | [] => Ok nctx
  | v :: r =>
    match Var_Eval v ctx with
    | Ok val => eval_local r ctx (<[Var_Name v := val]> nctx)
    | Err e => Err e
    end
  end.

(** Its third loop, [for k := range ctx { ctx[k] = nctx[k] }]: the keys
    of [ctx] stay, each takes the value [nctx] has for it (nil when
    [nctx] has none). *)
Definition write_back (ctx nctx : Ctx) : Ctx :=
  map_imap (λ k _, Some (default VNil (nctx !! k))) ctx.

(** [Step.EvalVariables]: the caller's map after the call, and what the
    call returns. *)
Definition Step_EvalVariables (s : Step) (ctx : Ctx)
  : Ctx * result Ctx :=
  match eval_local (Step_Variables s) ctx (copy_context ctx) with
  | Err e => (ctx, Err e)
  | Ok nctx => (write_back ctx nctx, Ok nctx)
  end.

(** What a call of [Exec] did: its calls of
    [exec.Command(cmd, args...).Output()], in order (a call that fails
    before a process is started is listed as well), and either the pair
    it returned or a panic (nil pointer dereference). *)
Inductive returned :=
  | Return (err : option error) (res : string)
  | Panic.

Record outcome := {
  spawned : list (string * list string);
  ret : returned
}.

(** [Step.Exec]: the caller's map after the call, and the outcome.
    [bytes.Buffer.ReadRune] fails with [io.EOF] only, so the loop always
    ends in [wrap]. *)
Definition Step_Exec (s : Step) (ctx : Ctx) : Ctx * outcome :=
  match Step_EvalVariables s ctx with
  | (ctx', Err e) => (ctx', {| spawned := []; ret := Return (Some e) "" |})
  | (ctx', Ok nctx) =>
    match Step_command s with
    | None => (ctx', {| spawned := []; ret := Panic |})
    | Some command =>
      match Template_Execute command nctx with
      | Err e => (ctx', {| spawned := []; ret := Return (Some e) "" |})
      | Ok buf =>
        let split := tokenize buf in
        let cmd := hd "" split in
        let args := tl split in
        let '(out, err) := Command_Output cmd args in
        (ctx',
         {| spawned := [(cmd, args)];
            ret := match err with
                   | None => Return None out
                   | Some (ExitError e Stderr) =>
                     Return (Some e) (out +:+ String (ascii_of 10) "" +:+ Stderr)
                   | Some (SpawnError e) => Return (Some e) out
                   end |})
      end
    end
  end.

Record Pipeline := {
  Pipeline_Variables : Vars;
  Pipeline_Steps : list Step
}.

Fixpoint Steps_Prepare (steps : list Step) : list Step * option error :=
  match steps with
  | [] => ([], None)
  | s :: r =>
    match Step_Prepare s with
    | (s', Some e) => (s' :: r, Some e)
    | (s', None) => let '(r', e) := Steps_Prepare r in (s' :: r', e)
    end
  end.

(** [Pipeline.Prepare]. *)
Definition Pipeline_Prepare (p : Pipeline) : Pipeline * option error :=
  match Vars_Prepare (Pipeline_Variables p) with
  | (vars, Some e) =>
    ({| Pipeline_Variables := vars; Pipeline_Steps := Pipeline_Steps p |}, Some e)
  | (vars, None) =>
    let '(steps, e) := Steps_Prepare (Pipeline_Steps p) in
    ({| Pipeline_Variables := vars; Pipeline_Steps := steps |}, e)
  end.

(** [Pipeline.EvalVariables]: each value is written into [ctx] itself
    before the next variable is evaluated. *)
Fixpoint eval_shared (vars : Vars) (ctx : Ctx) : Ctx * option error :=
  match vars with
  | [] => (ctx, None)
  | v :: r =>
    match Var_Eval v ctx with
    | Ok val => eval_shared r (<[Var_Name v := val]> ctx)
    | Err e => (ctx, Some e)
    end
  end.

Definition Pipeline_EvalVariables (p : Pipeline) (ctx : Ctx)
  : Ctx * result Ctx :=
  match eval_shared (Pipeline_Variables p) ctx with
  | (ctx', Some e) => (ctx', Err e)
  | (ctx', None) => (ctx', Ok ctx')
  end.

(** The loop over the steps of [Pipeline.Exec]; [vars] is the one map
    every step receives. *)
Fixpoint exec_steps (steps : list Step) (vars : Ctx) : Ctx * outcome :=
  match steps with
  | [] => (vars, {| spawned := []; ret := Return None "" |})
  | s :: r =>
    match Step_Exec s vars with
    | (vars', {| spawned := sp; ret := Return None _ |}) =>
      let '(vars'', o) := exec_steps r vars' in
      (vars'', {| spawned := sp ++ spawned o; ret := ret o |})
    | (vars', o) => (vars', o)
    end
  end.

(** [Pipeline.Exec]. *)
Definition Pipeline_Exec (p : Pipeline) (ctx : Ctx) : Ctx * outcome :=
  match Pipeline_EvalVariables p ctx with
  | (ctx', Err e) => (ctx', {| spawned := []; ret := Return (Some e) "" |})
  | (_, Ok vars) => exec_steps (Pipeline_Steps p) vars
  end.

End pipeline.


(** ** Package [main]: files, groups and the watcher *)

(** A [time.Time], as nanoseconds since the zero [Time]. *)
Definition Time := Z.
Definition After (t u : Time) : bool := u <? t.    (* t.After(u) *)
Definition Before (t u : Time) : bool := t <? u.   (* t.Before(u) *)

(** An [os.FileInfo], by the three methods the code calls. *)
Record FileInfo := {
  FileInfo_Name : string;
  FileInfo_Size : Z;
  FileInfo_ModTime : Time
}.

Record File := {
  File_Prefix : string;
  File_Name : string;
  File_Fullpath : string;
  File_Size : Z;
  File_LastModified : Time
}.

Record FileGroup := {
  Files : gmap string File;
  LastModified : Time;
  Path : string;
  Id : string;
  RequiredFound : Z;
  HasNight : bool
}.

(** Go's [int] is 64 bits wide here; [n + 1] wraps around. *)
Definition wrap_int (n : Z) : Z := (n + 2 ^ 63) mod 2 ^ 64 - 2 ^ 63.
Definition max_int : Z := 2 ^ 63 - 1.

(** What the file system answers while one callback runs: [os.Stat], and
    the order in which a [range] over [fg.Files] visits the files, which
    Go leaves unspecified. *)
Record FS := {
  Stat : string → result FileInfo;
  range_order : list File → list File
}.

(** The loop of [FileGroup.AnyChanged] over the files in visiting order. *)
Fixpoint AnyChanged_range (stat : string → result FileInfo) (files : list File)
  : result bool :=
  match files with
  | [] => Ok false
  | f :: rest =>
    match stat (File_Fullpath f) with
    | Err e => Err e
    | Ok inf =>
      if After (FileInfo_ModTime inf) (File_LastModified f)
         || (File_Size f <? FileInfo_Size inf)
      then Ok true
      else AnyChanged_range stat rest
    end
  end.

(** [FileGroup.AnyChanged]. *)
Definition AnyChanged (fs : FS) (fg : FileGroup) : result bool :=
  AnyChanged_range (Stat fs) (range_order fs (map_to_list (Files fg)).*2).

Definition UnexpectedName : error := "Name does not satisfy expected pattern.".

(** [getId]. *)
Definition getId (file : string) : result string :=
  let name := Base file in
  let parts := Split name "_" in
  if (length parts <? 6)%nat then Err UnexpectedName
  else Ok (Join (take 4 (drop 1 parts)) "_").

(** The watcher.  [found] owns the groups: a [*FileGroup] is reached
    through [found] under its id and nowhere else, except that [ready]
    stores the same pointer again.  The code only ever tests [ready] for
    a key, so [ready] is its key set. *)
Record Watcher := {
  root : string;
  delay : Z;
  required : list string;
  found : gmap string FileGroup;
  ready : gset string
}.

Definition Second : Z := 1000000000.

(** [NewWatcher]. *)
Definition NewWatcher (root : string) (required : list string) (delay : Z)
  : Watcher :=
  {| root := root;
     delay := if delay =? 0 then 30 * Second else delay;
     required := required;
     found := ∅;
     ready := ∅ |}.

(** [Watcher.isRequired]. *)
Fixpoint isRequired_in (required : list string) (s : string) : bool * string :=
  match required with
  | [] => (false, "")
  | r :: rest => if HasPrefix s r then (true, r) else isRequired_in rest s
  end.

Definition isRequired (w : Watcher) (s : string) : bool * string :=
  isRequired_in (required w) s.

(** The statements of the callback after the stability check: refresh
    the group's modification time, register the file under its name if
    the group has none of that name, refresh the file. *)
Definition record_file (grp : FileGroup) (p : string) (inf : FileInfo)
  : FileGroup :=
  let modified :=
    if After (FileInfo_ModTime inf) (LastModified grp)
    then FileInfo_ModTime inf else LastModified grp in
  match Files grp !! FileInfo_Name inf with
  | None =>
    {| Files :=
         <[FileInfo_Name inf :=
             {| File_Prefix := hd "" (Split (FileInfo_Name inf) "_");
                File_Name := FileInfo_Name inf;
                File_Fullpath := p;
                File_Size := FileInfo_Size inf;
                File_LastModified := FileInfo_ModTime inf |}]> (Files grp);
       LastModified := modified;
       Path := Path grp;
       Id := Id grp;
       RequiredFound := wrap_int (RequiredFound grp + 1);
       HasNight := HasNight grp |}
  | Some f =>
    {| Files :=
         <[FileInfo_Name inf :=
             {| File_Prefix := File_Prefix f;
                File_Name := File_Name f;
                File_Fullpath := File_Fullpath f;
                File_Size := FileInfo_Size inf;
                File_LastModified := FileInfo_ModTime inf |}]> (Files grp);
       LastModified := modified;
       Path := Path grp;
       Id := Id grp;
       RequiredFound := RequiredFound grp;
       HasNight := HasNight grp |}
  end.

(** One call of the function [Watch] hands to [filepath.Walk]. *)
Record Visit := {
  visit_fs : FS;
  visit_path : string;
  visit_info : FileInfo;
  visit_err : option error
}.

(** What one call does: the watcher afterwards, the group [Process] was
    called on (as it was at the call), and the error returned to [Walk]. *)
Record Visited := {
  watcher : Watcher;
  processed : option FileGroup;
  walk_err : option error
}.

Definition skip (w : Watcher) : Visited :=
  {| watcher := w; processed := None; walk_err := None |}.

Definition walkFn (launchTime : Time) (w : Watcher) (v : Visit) : Visited :=
  let p := visit_path v in
  let inf := visit_info v in
  match visit_err v with
  | Some err => {| watcher := w; processed := None; walk_err := Some err |}
  | None =>
    let name := FileInfo_Name inf in
    if negb (String.eqb ".h5" (Ext p)) then skip w
    else if negb (fst (isRequired w name)) then skip w
    else
      match getId name with
      | Err _ => skip w
      | Ok id =>
        if bool_decide (id ∈ ready w) then skip w
        else
          let group :=
            match found w !! id with
            | Some grp => Some grp
            | None =>
              if Before (FileInfo_ModTime inf) launchTime then None
              else Some {| Files := ∅; LastModified := 0; Path := SplitDir p;
                           Id := id; RequiredFound := 0; HasNight := false |}
            end in
          match group with
          | None => skip w
          | Some grp =>
            let stable :=
              if Z.of_nat (length (required w)) =? RequiredFound grp
              then match AnyChanged (visit_fs v) grp with
                   | Err _ => false
                   | Ok changed => negb changed
                   end
              else false in
            {| watcher :=
                 {| root := root w; delay := delay w; required := required w;
                    found := <[id := record_file grp p inf]> (found w);
                    ready := if stable then {[Id grp]} ∪ ready w else ready w |};
               processed :=
                 if stable && After (LastModified grp) launchTime
                 then Some grp else None;
               walk_err := None |}
          end
      end
  end.

(** The calls of the callback in the order [Watch] makes them, round
    after round, and the calls of [Process] they lead to. *)
Fixpoint Watch (launchTime : Time) (w : Watcher) (visits : list Visit)
  : Watcher * list FileGroup :=
  match visits with
  | [] => (w, [])
  | v :: rest =>
    let r := walkFn launchTime w v in
    let '(w', calls) := Watch launchTime (watcher r) rest in
    (w', match processed r with Some g => g :: calls | None => calls end)
  end.


(** ** Package [main]: configuration and start-up *)

Definition noConfig : error := "No config file provided.".

Section startup.
Context `{GoRuntime}.

(** The package-level variable [cfg]. *)
Record Config := {
  cfg_Required : list string;
  cfg_Period : string;
  cfg_Prefix : string;
  cfg_WatchDir : string;
  cfg_SubDir : string;
  cfg_OutputDir : string;
  cfg_Version : string;
  cfg_Pipeline : Pipeline
}.

(** The other package-level variables [readConfig] assigns. *)
Record Globals := {
  cfg : Config;
  pipeline : Pipeline;
  watchDir : string;
  subDir : string;
  prefix : string;
  period : Z;
  default_required : list string;
  OutputDir : string;
  version : string
}.

Definition no_pipeline : Pipeline :=
  {| Pipeline_Variables := []; Pipeline_Steps := [] |}.

(** Their values at program start. *)
Definition globals0 : Globals :=
  {| cfg := {| cfg_Required := []; cfg_Period := ""; cfg_Prefix := "";
               cfg_WatchDir := ""; cfg_SubDir := ""; cfg_OutputDir := "";
               cfg_Version := ""; cfg_Pipeline := no_pipeline |};
     pipeline := no_pipeline;
     watchDir := "/data";
     subDir := "result";
     prefix := "NPP";
     period := 30 * Second;
     default_required :=
       ["SVM10"; "GMTCO"; "IICMO"; "SVDNB"; "SVM07"; "SVM08"; "SVM12";
        "SVM13"; "SVM14"; "SVM15"; "SVM16"];
     OutputDir := "/output";
     version := "v2.1" |}.

(** What [readConfig] asks of its surroundings: the command line, the
    bytes of a file ([os.Open] followed by [ReadFrom]), the YAML decoder
    filling [cfg], and [time.ParseDuration]. *)
Record Startup := {
  Args : list string;
  ReadFile : string → result string;
  Unmarshal : string → result Config;
  ParseDuration : string → result Z
}.

Definition nonempty (s : string) : bool := negb (String.eqb "" s).

(** [readConfig]: the package-level variables afterwards and the error
    returned.  The value [pipeline.Prepare()] returns is not looked at. *)
Definition readConfig (env : Startup) (g : Globals) : Globals * option error :=
  match Args env with
  | _ :: file :: _ =>
    match ReadFile env file with
    | Err err => (g, Some err)
    | Ok bb =>
      match Unmarshal env bb with
      | Err err => (g, Some err)
      | Ok c =>
        let required' :=
          if (0 <? length (cfg_Required c))%nat then cfg_Required c
          else default_required g in
        let assigned period' :=
          {| cfg := c;
             pipeline := fst (Pipeline_Prepare (cfg_Pipeline c));
             watchDir := if nonempty (cfg_WatchDir c) then cfg_WatchDir c
                         else watchDir g;
             subDir := if nonempty (cfg_SubDir c) then cfg_SubDir c
                       else subDir g;
             prefix := if nonempty (cfg_Prefix c) then cfg_Prefix c
                       else prefix g;
             period := period';
             default_required := required';
             OutputDir := if nonempty (cfg_OutputDir c) then cfg_OutputDir c
                          else OutputDir g;
             version := if nonempty (cfg_Version c) then cfg_Version c
                        else version g |} in
        if nonempty (cfg_Period c) then
          match ParseDuration env (cfg_Period c) with
          | Ok dur => (assigned dur, None)
          | Err err =>
            ({| cfg := c; pipeline := pipeline g; watchDir := watchDir g;
                subDir := subDir g; prefix := prefix g; period := period g;
                default_required := required'; OutputDir := OutputDir g;
                version := version g |}, Some err)
          end
        else (assigned (period g), None)
      end
    end
  | _ => (g, Some noConfig)
  end.

(** How [main] goes on after [readConfig]: it exits, or it enters
    [Watch] on a new watcher (with the package-level variables as
    [readConfig] left them). *)
Inductive started :=
  | Exit (code : Z) (err : error)
  | Watching (w : Watcher) (g : Globals).

Definition main (env : Startup) : started :=
  match readConfig env globals0 with
  | (_, Some err) => Exit 1 err
  | (g, None) =>
    Watching (NewWatcher (cfg_WatchDir (cfg g)) (default_required g) (period g)) g
  end.

End startup.


(** ** Package [main]: the night check and [Process] *)

Definition H5DumpBinary : string := "h5dump".

Definition night_query : string :=
  "//Attribute[contains(@Name, 'Ascending/Descending_Indicator')]/Data/DataFromFile".

(** What [hasNight] uses of [gopkg.in/xmlpath.v2] and of [strings]:
    [Compile], [Parse], the texts of the nodes an iterator yields, in
    order, and [strings.TrimSpace]. *)
Record NightLibs := {
  xp_Path : Type;
  xp_Node : Type;
  xp_Compile : string → result xp_Path;
  xp_Parse : string → result xp_Node;
  xp_Iter : xp_Path → xp_Node → list string;
  TrimSpace : string → string
}.

(** The orders of the two [range] loops of [Process] over [fg.Files]. *)
Record Ranges := {
  probe_order : list File → list File;
  seed_order : list File → list File
}.

Section processing.
Context `{GoRuntime}.

Local Abbreviation Value := (Value float64).
Local Abbreviation Ctx := (gmap string Value).

(** [hasNight]. *)
Definition hasNight (libs : NightLibs) (file : string) : bool :=
  match Command_Output H5DumpBinary ["-x"; "-A"; file] with
  | (_, Some _) => true
  | (out, None) =>
    match xp_Compile libs night_query with
    | Err _ => true
    | Ok path =>
      match xp_Parse libs out with
      | Err _ => true
      | Ok root =>
        existsb (λ node, negb (String.eqb (TrimSpace libs node) "0"))
                (xp_Iter libs path root)
      end
    end
  end.

(** The body of the second loop of [Process], for one file. *)
Definition seed_file (gctx : Ctx) (f : File) : Ctx :=
  <[File_Prefix f +:+ "_Name" :=
      VString (TrimSuffix (File_Name f) (Ext (File_Name f)))]>
    (<[File_Prefix f := VString (File_Fullpath f)]> gctx).

(** The context [Process] hands to the pipeline, the files taken in the
    order [files]. *)
Definition seed_context (g : Globals) (fg : FileGroup) (files : list File) : Ctx :=
  fold_left seed_file files
    (<["OutputDir" := VString (OutputDir g)]>
       (<["Version" := VString (version g)]>
          (<["Id" := VString (Id fg)]> ∅))).

(** [Process]: [None] when it returns before the pipeline runs, else
    the context after [pipeline.Exec] and what that call did. *)
Definition Process (libs : NightLibs) (r : Ranges) (g : Globals) (fg : FileGroup)
  : option (Ctx * outcome) :=
  let files := (map_to_list (Files fg)).*2 in
  let night :=
    match probe_order r files with
    | [] => true
    | f :: _ => hasNight libs (File_Fullpath f)
    end in
  if night
  then Some (Pipeline_Exec (pipeline g) (seed_context g fg (seed_order r files)))
  else None.

End processing.

(** ** A reference runtime

    To run the model on concrete inputs the interface [GoRuntime] needs
    one inhabitant.  This one covers a fragment of the libraries: a
    template is text with field actions such as [((.Id))] in it, a float
    is a decimal literal [digits] or [digits.digits] of moderate size,
    and the commands are [true], [false] and [echo].  Outside that
    fragment it is not the library: it refuses templates and float
    literals that Go accepts (pipelines and control actions; exponents,
    [.5], [5.], hexadecimal, [Inf], [NaN]), and it prints a float as
    the decimal literal where Go switches to exponent form.  It is run
    only on inputs of the fragment.  The theorems below that are stated
    for every runtime do not depend on it. *)
Module Reference.

(** [Field name more] is the action [.name.more...]: a lookup of [name]
    in the context, then of each further field in the value found. *)
Inductive node :=
  | Text (s : string)
  | Field (name : string) (more : list string).

(** A float, as [mantissa] / 10 ^ [scale]. *)
Record decimal := { mantissa : Z; scale : nat }.

Fixpoint drop_bytes (n : nat) (s : string) : string :=
  match n, s with
  | S k, String _ r => drop_bytes k r
  | _, _ => s
  end.

(** The text before the first occurrence of [d] in [s], and the text
    after it. *)
Fixpoint cut (d s : string) {struct s} : option (string * string) :=
  if String.prefix d s then Some ("", drop_bytes (String.length d) s)
  else match s with
       | EmptyString => None
       | String c r =>
         match cut d r with
         | Some (a, b) => Some (String c a, b)
         | None => None
         end
       end.

Fixpoint trim_left (s : string) : string :=
  match s with
  | String c r => if Ascii.eqb c " " then trim_left r else s
  | EmptyString => s
  end.

Definition trim (s : string) : string :=
  String.rev (trim_left (String.rev (trim_left s))).

Fixpoint is_word (s : string) : bool :=
  match s with
  | EmptyString => true
  | String c r =>
    let b := byte_of c in
    (in_range 48 57 b || in_range 65 90 b || in_range 97 122 b || (b =? 95))
    && is_word r
  end.

Definition is_name (s : string) : bool :=
  is_word s && negb (String.eqb s "").

Fixpoint parse_nodes (fuel : nat) (l r text : string) : result (list node) :=
  match fuel with
  | O => Err "template too long"
  | S fuel =>
    match cut l text with
    | None => Ok (if String.eqb text "" then [] else [Text text])
    | Some (before, rest) =>
      match cut r rest with
      | None => Err "unclosed action"
      | Some (action, rest') =>
        match trim action with
        | String "." path =>
          match Split path "." with
          | name :: more =>
            if forallb is_name (name :: more) then
              match parse_nodes fuel l r rest' with
              | Ok ns =>
                Ok ((if String.eqb before "" then [] else [Text before])
                    ++ Field name more :: ns)
              | Err e => Err e
              end
            else Err "action outside the fragment"
          | [] => Err "action outside the fragment"
          end
        | _ => Err "action outside the fragment"
        end
      end
    end
  end.

Definition Parse (name l r text : string) : result (list node) :=
  parse_nodes (S (String.length text)) l r text.

Definition print_Z (z : Z) : string :=
  DecimalString.NilZero.string_of_int (Z.to_int z).

Fixpoint pad_zeros (n : nat) (s : string) : string :=
  match n with
  | O => s
  | S k => if (String.length s <? n)%nat then String "0" (pad_zeros k s) else s
  end.

Definition print_decimal (d : decimal) : string :=
  let m := Z.abs (mantissa d) in
  let unit := 10 ^ Z.of_nat (scale d) in
  (if mantissa d <? 0 then "-" else "") +:+ print_Z (m / unit) +:+
  (if (scale d =? 0)%nat then ""
   else "." +:+ pad_zeros (scale d) (print_Z (m mod unit))).

Definition print (v : Value decimal) : string :=
  match v with
  | VNil => "<no value>"
  | VBool b => if b then "true" else "false"
  | VInt i => print_Z i
  | VFloat f => print_decimal f
  | VString s => s
  end.

(** The values of a context are scalars, and a scalar has no fields: an
    action with more than one field fails when its first field is a key
    of the context, as it does in Go; when the first field is not a key
    of the context, Go goes on with the invalid value and prints
    [<no value>]. *)
Fixpoint Execute (t : list node) (ctx : gmap string (Value decimal))
  : result string :=
  match t with
  | [] => Ok ""
  | n :: rest =>
    let here :=
      match n with
      | Text s => Ok s
      | Field name [] =>
        Ok match ctx !! name with
           | Some v => print v
           | None => "<no value>"
           end
      | Field name (field :: _) =>
        match ctx !! name with
        | Some _ => Err ("can't evaluate field " +:+ field)
        | None => Ok "<no value>"
        end
      end in
    match here with
    | Err e => Err e
    | Ok s =>
      match Execute rest ctx with
      | Ok s' => Ok (s +:+ s')
      | Err e => Err e
      end
    end
  end.

Fixpoint strip_zeros (fuel : nat) (m : Z) (sc : nat) : decimal :=
  match fuel, sc with
  | S fuel, S sc' =>
    if m mod 10 =? 0 then strip_zeros fuel (m / 10) sc'
    else {| mantissa := m; scale := sc |}
  | _, _ => {| mantissa := m; scale := sc |}
  end.

Definition ParseDecimal (str : string) : option decimal :=
  match str with
  | EmptyString => None
  | String c r =>
    let neg := Ascii.eqb c "-" in
    let body := if Ascii.eqb c "+" || neg then r else str in
    let signed (m : Z) := if neg then - m else m in
    match Split body "." with
    | [whole] =>
      if String.eqb whole "" then None
      else match parse_digits whole 0 with
           | Some m => Some {| mantissa := signed m; scale := 0 |}
           | None => None
           end
    | [whole; frac] =>
      if String.eqb whole "" || String.eqb frac "" then None
      else match parse_digits (whole +:+ frac) 0 with
           | Some m =>
             Some (strip_zeros (String.length frac) (signed m)
                               (String.length frac))
           | None => None
           end
    | _ => None
    end
  end.

Definition Output (cmd : string) (args : list string)
  : string * option exec_error :=
  if String.eqb cmd "" then ("", Some (SpawnError "exec: no command"))
  else if String.eqb cmd "true" then ("", None)
  else if String.eqb cmd "false" then ("", Some (ExitError "exit status 1" ""))
  else if String.eqb cmd "echo"
  then (String.concat " " args +:+ String (ascii_of 10) "", None)
  else ("", Some (SpawnError "executable file not found in $PATH")).

#[export] Instance runtime : GoRuntime := {|
  float64 := decimal;
  ParseFloat := ParseDecimal;
  Template := list node;
  Template_Parse := Parse;
  Template_Execute := Execute;
  Command_Output := Output
|}.

End Reference.

(** * Predicates of the properties *)

(** Every group is filed under its own id. *)
Definition filed_by_id (w : Watcher) : Prop :=
  ∀ id g, found w !! id = Some g → Id g = id.

(** [RequiredFound] counts the files of the group, one per file name. *)
Definition counts_files (g : FileGroup) : Prop :=
  RequiredFound g = wrap_int (Z.of_nat (size (Files g))).

(** What the loop tests on one file: a later modification time or a
    larger size than recorded. *)
Definition grew (stat : string → result FileInfo) (f : File) : bool :=
  match stat (File_Fullpath f) with
  | Ok inf =>
    After (FileInfo_ModTime inf) (File_LastModified f)
    || (File_Size f <? FileInfo_Size inf)
  | Err _ => false
  end.

(** What the specification asks for: a size or a modification time that
    differs from the recorded one. *)
Definition differs (stat : string → result FileInfo) (f : File) : Prop :=
  ∃ inf, stat (File_Fullpath f) = Ok inf
         ∧ (FileInfo_Size inf ≠ File_Size f
            ∨ FileInfo_ModTime inf ≠ File_LastModified f).

(** Text for the tokenizer.  A plain byte is an ASCII byte that the
    lexer treats as an ordinary character in every state: not NUL, not
    white space, not a quote, not a backslash. *)
Definition chars (s : string) : list ascii := list_ascii_of_string s.

Definition ascii_byte (c : ascii) : bool := byte_of c <? 128.

Definition blank_byte (c : ascii) : bool :=
  let b := byte_of c in (b =? 32) || (b =? 10) || (b =? 9) || (b =? 13).

Definition plain_byte (c : ascii) : bool :=
  let b := byte_of c in
  (0 <? b) && (b <? 128) && negb (blank_byte c)
  && negb (b =? 39) && negb (b =? 34) && negb (b =? 92).

Definition plain_word (w : string) : Prop :=
  w ≠ "" ∧ Forall (λ c, plain_byte c = true) (chars w).

(** A byte that [ReadRune] turns into a rune the loop skips, wherever it
    stands after ASCII text: NUL, or a byte that cannot start a UTF-8
    sequence. *)
Definition skipped_byte (c : ascii) : bool :=
  let b := byte_of c in (b =? 0) || in_range 128 193 b || (245 <=? b).

(** A field of a file name: text without the separator of the fields and
    without the separator of paths. *)
Definition name_field (f : string) : Prop :=
  Forall (λ c, c ≠ "_"%char ∧ c ≠ "/"%char) (chars f).

(** A tracked file as the callback registers it under [id]. *)
Definition registered (required : list string) (id name : string) (f : File) : Prop :=
  File_Name f = name
  ∧ File_Prefix f = hd "" (Split name "_")
  ∧ getId name = Ok id
  ∧ (isRequired_in required name).1 = true
  ∧ Ext (File_Fullpath f) = ".h5".

(** The group the callback opens for an id it has not seen. *)
Definition new_group (id p : string) : FileGroup :=
  {| Files := ∅; LastModified := 0; Path := SplitDir p; Id := id;
     RequiredFound := 0; HasNight := false |}.

(** The test the callback makes before it claims [grp]: all required
    kinds counted, and [AnyChanged] answering "no change". *)
Definition stable_now (w : Watcher) (v : Visit) (grp : FileGroup) : bool :=
  if Z.of_nat (length (required w)) =? RequiredFound grp
  then match AnyChanged (visit_fs v) grp with
       | Err _ => false
       | Ok changed => negb changed
       end
  else false.

(** What holds of the groups of a watcher that started at [launchTime]
    with the prefixes [req]. *)
Definition well_tracked (launchTime : Time) (req : list string) (w : Watcher) : Prop :=
  required w = req
  ∧ ready w ⊆ dom (found w)
  ∧ ∀ id g, found w !! id = Some g →
      Id g = id
      ∧ launchTime ≤ LastModified g
      ∧ ∀ name f, Files g !! name = Some f → registered req id name f.

(** * Example data *)

Module Examples.
Import Reference.

Definition dquote : string := String (ascii_of 34) "".

(** The command line [cmd -o "a b" 'c d' e\ f]. *)
Definition quoted_command : string :=
  "cmd -o " +:+ dquote +:+ "a b" +:+ dquote +:+ " 'c d' e\ f".

(** Two files of one group: same prefix, same id [1_2_3_4], different
    names.  [first_file] is a visit of the first while it is on disk as
    it was found; [second_file] is a visit of the second at a time when
    the first has grown. *)
Definition first_file : Visit :=
  {| visit_fs :=
       {| Stat := λ _, Ok {| FileInfo_Name := "A_1_2_3_4_x.h5";
                             FileInfo_Size := 10; FileInfo_ModTime := 200 |};
          range_order := id |};
     visit_path := "/data/A_1_2_3_4_x.h5";
     visit_info := {| FileInfo_Name := "A_1_2_3_4_x.h5"; FileInfo_Size := 10;
                      FileInfo_ModTime := 200 |};
     visit_err := None |}.

Definition second_file : Visit :=
  {| visit_fs :=
       {| Stat := λ _, Ok {| FileInfo_Name := "A_1_2_3_4_x.h5";
                             FileInfo_Size := 20; FileInfo_ModTime := 200 |};
          range_order := id |};
     visit_path := "/data/A_1_2_3_4_y.h5";
     visit_info := {| FileInfo_Name := "A_1_2_3_4_y.h5"; FileInfo_Size := 10;
                      FileInfo_ModTime := 200 |};
     visit_err := None |}.

(** A group of one file, recorded with 10 bytes, and a file system on
    which the file has shrunk to 3 bytes, its modification time
    unchanged. *)
Definition tracked_group : FileGroup :=
  {| Files := {[ "A_1_2_3_4_x.h5" :=
                   {| File_Prefix := "A"; File_Name := "A_1_2_3_4_x.h5";
                      File_Fullpath := "/data/A_1_2_3_4_x.h5";
                      File_Size := 10; File_LastModified := 200 |} ]};
     LastModified := 200; Path := "/data/"; Id := "1_2_3_4";
     RequiredFound := 1; HasNight := false |}.

Definition shrunk_fs : FS :=
  {| Stat := λ _, Ok {| FileInfo_Name := "A_1_2_3_4_x.h5"; FileInfo_Size := 3;
                        FileInfo_ModTime := 200 |};
     range_order := id |}.

(** A file system on which the file has grown to 20 bytes. *)
Definition grown_fs : FS :=
  {| Stat := λ _, Ok {| FileInfo_Name := "A_1_2_3_4_x.h5"; FileInfo_Size := 20;
                        FileInfo_ModTime := 200 |};
     range_order := id |}.

Definition var (name : string) (value : Value decimal) : Var :=
  {| Var_Name := name; Var_Value := value; Var_expression := None |}.

Definition step (name : string) (vars : list Var) (command : string) : Step :=
  {| Step_Name := name; Step_Variables := vars; Step_Command := command;
     Step_command := None |}.

(** The scenario of the specification: the shared context holds [X = 1];
    the first step declares [X = 2] and [Y = 9]; a second step declares
    nothing. *)
Definition leaking_step : Step :=
  (Step_Prepare
     (step "first" [var "X" (VInt 2); var "Y" (VInt 9)] "echo ((.X)) ((.Y))")).1.

Definition plain_step : Step :=
  (Step_Prepare (step "second" [] "echo ((.X)) ((.Y))")).1.

(** A variable that names a field of a string, and a step that has it
    as its second variable. *)
Definition failing_var : Var :=
  (Var_Prepare (var "Bad" (VString "((.Id.x))"))).1.

Definition failing_step : Step :=
  (Step_Prepare
     (step "broken" [var "X" (VInt 2); var "Bad" (VString "((.Id.x))")]
           "echo ((.X))")).1.

(** The inherited context holds [A = 5]; the step declares [A] as the
    text [7] and then [B] as the template [((.A))]. *)
Definition shadowing_vars : list Var :=
  (Vars_Prepare [var "A" (VString "7"); var "B" (VString "((.A))")]).1.

Definition shadowing_step : Step :=
  (Step_Prepare
     (step "shadow" [var "A" (VString "7"); var "B" (VString "((.A))")]
           "echo ((.A)) ((.B))")).1.

(** A configuration whose only step has a command with an action that is
    never closed, and the surroundings that deliver it. *)
Definition broken_config : Config :=
  {| cfg_Required := ["SVM10"; "GMTCO"]; cfg_Period := ""; cfg_Prefix := "";
     cfg_WatchDir := "/data"; cfg_SubDir := ""; cfg_OutputDir := "";
     cfg_Version := "";
     cfg_Pipeline :=
       {| Pipeline_Variables := [var "Out" (VString "((.OutputDir))/((.Id))")];
          Pipeline_Steps := [step "detect" [] "viirs_detect ((.SVM10"] |} |}.

Definition broken_startup : Startup :=
  {| Args := ["viirs-watcher"; "config.yaml"];
     ReadFile := λ _, Ok "Pipeline: ...";
     Unmarshal := λ _, Ok broken_config;
     ParseDuration := λ _, Err "time: invalid duration" |}.

(** A configuration that names no directory and no prefixes, with a
    period of zero, and the surroundings that deliver it. *)
Definition bare_config : Config :=
  {| cfg_Required := []; cfg_Period := "0s"; cfg_Prefix := "";
     cfg_WatchDir := ""; cfg_SubDir := ""; cfg_OutputDir := "";
     cfg_Version := ""; cfg_Pipeline := no_pipeline |}.

Definition bare_startup : Startup :=
  {| Args := ["viirs-watcher"; "config.yaml"];
     ReadFile := λ _, Ok "Period: 0s";
     Unmarshal := λ _, Ok bare_config;
     ParseDuration := λ d, if String.eqb d "0s" then Ok 0
                           else Err "time: invalid duration" |}.

(** Steps that run [true], [false] and [echo]. *)
Definition true_step : Step := (Step_Prepare (step "ok" [] "true")).1.
Definition false_step : Step := (Step_Prepare (step "fails" [] "false")).1.
Definition echo_step : Step := (Step_Prepare (step "says" [] "echo done")).1.

(** A step whose command renders to a single space. *)
Definition blank_step : Step := (Step_Prepare (step "blank" [] " ")).1.

(** A step that declares one variable, of a name the context lacks. *)
Definition fresh_step : Step :=
  (Step_Prepare (step "fresh" [var "Y" (VInt 9)] "echo ((.Y))")).1.

(** A pipeline whose second variable fails to evaluate. *)
Definition failing_pipeline : Pipeline :=
  (Pipeline_Prepare
     {| Pipeline_Variables := [var "X" (VInt 2); var "Bad" (VString "((.Id.x))")];
        Pipeline_Steps := [step "says" [] "echo done"] |}).1.

(** Two tracked files of one group, with different prefixes. *)
Definition file_A : File :=
  {| File_Prefix := "A"; File_Name := "A_1_2_3_4_x.h5";
     File_Fullpath := "/data/A_1_2_3_4_x.h5"; File_Size := 10;
     File_LastModified := 200 |}.

Definition file_B : File :=
  {| File_Prefix := "B"; File_Name := "B_1_2_3_4_x.h5";
     File_Fullpath := "/data/B_1_2_3_4_x.h5"; File_Size := 10;
     File_LastModified := 200 |}.

End Examples.

(** * Properties *)

Import Examples.

(** ** The tokenizer *)

Example tokenize_plain : tokenize "ls -l  /tmp" = ["ls"; "-l"; "/tmp"].
Proof. vm_compute. reflexivity. Qed.

Example tokenize_unterminated : tokenize (dquote +:+ "abc") = ["abc"].
Proof. vm_compute. reflexivity. Qed.

(** No branch of the loop assigns [DEFAULT]: once left, it is not
    entered again. *)
Lemma lex_rune_leaves_DEFAULT l r :
  state l ≠ DEFAULT → state (lex_rune l r) = state l.
Proof.
  intros Hne. unfold lex_rune.
  destruct ((r =? RuneError) || (r =? 0)); [done|].
  destruct (state l) eqn:E; [done| | |]; simpl.
  - destruct (r =? 39); simpl; done.
  - destruct (r =? 34); simpl; done.
  - done.
Qed.

Lemma lex_runes_leave_DEFAULT rs l :
  state l ≠ DEFAULT → state (fold_left lex_rune rs l) = state l.
Proof.
  revert l. induction rs as [|r rs IH]; intros l Hne; simpl; [done|].
  rewrite IH; rewrite lex_rune_leaves_DEFAULT; done.
Qed.

(** C3, on the code: a closing quote appends the accumulated token but
    the lexer stays in the quote state ([IN_SQ] after a single quote,
    [IN_DQ] after a double quote) instead of returning to [DEFAULT], and
    stays in it whatever runes follow; the command line
    [cmd -o "a b" 'c d' e\ f] therefore splits into four tokens, the last
    of them the whole remainder [ 'c d' e\ f], and not into the five
    tokens [cmd], [-o], [a b], [c d], [e f]. *)
Theorem C3_closing_quote_keeps_quote_state :
  (∀ a sp, state (lex_rune {| state := IN_SQ; acc := a; split := sp |} 39) = IN_SQ)
  ∧ (∀ a sp, state (lex_rune {| state := IN_DQ; acc := a; split := sp |} 34) = IN_DQ)
  ∧ (∀ rs a sp,
       state (fold_left lex_rune rs {| state := IN_SQ; acc := a; split := sp |})
       = IN_SQ)
  ∧ (∀ rs a sp,
       state (fold_left lex_rune rs {| state := IN_DQ; acc := a; split := sp |})
       = IN_DQ)
  ∧ tokenize quoted_command = ["cmd"; "-o"; "a b"; " 'c d' e\ f"]
  ∧ tokenize quoted_command ≠ ["cmd"; "-o"; "a b"; "c d"; "e f"].
Proof.
  split; [|split; [|split; [|split; [|split]]]].
  - intros a sp. reflexivity.
  - intros a sp. reflexivity.
  - intros rs a sp. by rewrite lex_runes_leave_DEFAULT.
  - intros rs a sp. by rewrite lex_runes_leave_DEFAULT.
  - vm_compute. reflexivity.
  - vm_compute. discriminate.
Qed.

(** C8, as stated, fails: the two-character input [''] does not yield
    the one-token list holding the empty string. *)
Lemma C8_empty_quotes_counterexample : tokenize "''" ≠ [""].
Proof. vm_compute. discriminate. Qed.

(** C8, amended: the input [''] yields no token at all.  [wrap] appends
    the accumulator only when it is not empty, whatever ended the token:
    a closing quote on an empty accumulator leaves the token list as it
    was, and on a non-empty accumulator appends it. *)
Theorem C8_empty_quotes_yield_no_token :
  tokenize "''" = []
  ∧ (∀ sp, split (lex_rune {| state := IN_SQ; acc := ""; split := sp |} 39) = sp)
  ∧ (∀ sp, split (lex_rune {| state := IN_DQ; acc := ""; split := sp |} 34) = sp)
  ∧ (∀ c a sp,
       split (lex_rune {| state := IN_SQ; acc := String c a; split := sp |} 39)
       = sp ++ [String c a]).
Proof.
  split; [|split; [|split]].
  - vm_compute. reflexivity.
  - intros sp. reflexivity.
  - intros sp. reflexivity.
  - intros c a sp. reflexivity.
Qed.

(** ** The watcher *)

Lemma record_file_Id grp p inf : Id (record_file grp p inf) = Id grp.
Proof. unfold record_file. destruct (Files grp !! _); reflexivity. Qed.

(** The callback either leaves the watcher alone or updates the one
    group filed under the id of the file it was called for. *)
Lemma walkFn_cases launchTime w v :
  (watcher (walkFn launchTime w v) = w ∧ processed (walkFn launchTime w v) = None)
  ∨ ∃ id grp stable,
      (id ∉ ready w)
      ∧ (found w !! id = Some grp
         ∨ found w !! id = None
           ∧ grp = {| Files := ∅; LastModified := 0;
                      Path := SplitDir (visit_path v); Id := id;
                      RequiredFound := 0; HasNight := false |})
      ∧ found (watcher (walkFn launchTime w v))
        = <[id := record_file grp (visit_path v) (visit_info v)]> (found w)
      ∧ ready (watcher (walkFn launchTime w v))
        = (if stable : bool then {[Id grp]} ∪ ready w else ready w)
      ∧ required (watcher (walkFn launchTime w v)) = required w
      ∧ processed (walkFn launchTime w v)
        = (if stable && After (LastModified grp) launchTime
           then Some grp else None).
Proof.
  unfold walkFn.
  destruct (visit_err v); [left; done|].
  destruct (negb (String.eqb ".h5" (Ext (visit_path v)))); [left; done|].
  destruct (negb (isRequired w (FileInfo_Name (visit_info v))).1); [left; done|].
  destruct (getId (FileInfo_Name (visit_info v))) as [id|]; [|left; done].
  case_bool_decide as Hready; [left; done|].
  destruct (found w !! id) as [grp|] eqn:Hfound.
  - right. eexists id, grp, _. simpl. repeat split; eauto.
  - destruct (Before _ _); [left; done|].
    right. eexists id, _, _. simpl. repeat split; eauto.
Qed.

Lemma walkFn_filed_by_id launchTime w v :
  filed_by_id w → filed_by_id (watcher (walkFn launchTime w v)).
Proof.
  intros Hw.
  destruct (walkFn_cases launchTime w v)
    as [[-> _]|(id & grp & stable & _ & Hgrp & Hfound & _)]; [done|].
  intros id' g. rewrite Hfound, lookup_insert. case_decide as Hid.
  - intros [= <-]. rewrite record_file_Id. subst id'.
    destruct Hgrp as [Hgrp|[_ ->]]; [by apply Hw|done].
  - apply Hw.
Qed.

Lemma walkFn_ready_mono launchTime w v :
  ready w ⊆ ready (watcher (walkFn launchTime w v)).
Proof.
  destruct (walkFn_cases launchTime w v)
    as [[-> _]|(id & grp & stable & _ & _ & _ & -> & _)]; [done|].
  destruct stable; set_solver.
Qed.

(** A group handed to [Process] was not in the ready set before the
    call of the callback and is in it afterwards. *)
Lemma walkFn_processed launchTime w v g :
  filed_by_id w →
  processed (walkFn launchTime w v) = Some g →
  (Id g ∉ ready w) ∧ Id g ∈ ready (watcher (walkFn launchTime w v)).
Proof.
  intros Hw.
  destruct (walkFn_cases launchTime w v)
    as [[_ ->]|(id & grp & stable & Hnot & Hgrp & _ & -> & _ & ->)]; [done|].
  assert (Id grp = id) as Hid.
  { destruct Hgrp as [Hgrp|[_ ->]]; [by apply Hw|done]. }
  destruct stable; simpl; [|done].
  destruct (After _ _); [|done].
  intros [= <-]. rewrite Hid. split; [done|].
  apply elem_of_union_l, elem_of_singleton. reflexivity.
Qed.

Lemma Watch_cons launchTime w v rest :
  Watch launchTime w (v :: rest)
  = let r := walkFn launchTime w v in
    ((Watch launchTime (watcher r) rest).1,
     match processed r with
     | Some g => g :: (Watch launchTime (watcher r) rest).2
     | None => (Watch launchTime (watcher r) rest).2
     end).
Proof. simpl. destruct (Watch launchTime _ rest). reflexivity. Qed.

Lemma Watch_filed_by_id launchTime visits w :
  filed_by_id w → filed_by_id (Watch launchTime w visits).1.
Proof.
  revert w. induction visits as [|v rest IH]; intros w Hw; [done|].
  rewrite Watch_cons. simpl. apply IH. by apply walkFn_filed_by_id.
Qed.

Lemma Watch_ready_mono launchTime visits w :
  ready w ⊆ ready (Watch launchTime w visits).1.
Proof.
  revert w. induction visits as [|v rest IH]; intros w; [done|].
  rewrite Watch_cons. simpl.
  etrans; [apply (walkFn_ready_mono launchTime w v)|apply IH].
Qed.

Lemma Watch_single_claim launchTime visits w :
  filed_by_id w →
  NoDup (Id <$> (Watch launchTime w visits).2)
  ∧ (∀ g, g ∈ (Watch launchTime w visits).2 →
          (Id g ∉ ready w) ∧ Id g ∈ ready (Watch launchTime w visits).1).
Proof.
  revert w. induction visits as [|v rest IH]; intros w Hw.
  { simpl. split; [constructor|]. intros g Hg. by apply elem_of_nil in Hg. }
  rewrite Watch_cons. simpl.
  pose proof (walkFn_filed_by_id launchTime w v Hw) as Hw'.
  pose proof (walkFn_ready_mono launchTime w v) as Hmono.
  destruct (IH _ Hw') as [Hnodup Hlater].
  destruct (processed (walkFn launchTime w v)) as [g0|] eqn:Hp.
  - destruct (walkFn_processed launchTime w v g0 Hw Hp) as [Hout Hin].
    split.
    + rewrite fmap_cons. constructor; [|done].
      intros (g & Hid & Hg)%list_elem_of_fmap.
      destruct (Hlater g Hg) as [Hnot _]. rewrite <- Hid in Hnot. done.
    + intros g [->|Hg]%elem_of_cons.
      * split; [done|]. by apply Watch_ready_mono.
      * destruct (Hlater g Hg) as [Hnot ?]. split; [|done].
        intros Hr. apply Hnot, Hmono, Hr.
  - split; [done|]. intros g Hg. destruct (Hlater g Hg) as [Hnot ?].
    split; [|done]. intros Hr. apply Hnot, Hmono, Hr.
Qed.

(** C1: from the watcher [NewWatcher] builds, whatever calls of the
    callback follow, no two calls of [Process] are for groups of the
    same id; and every id [Process] was called for is in the ready set,
    where the callback looks before anything else. *)
Theorem C1_single_claim launchTime root required delay visits :
  NoDup (Id <$> (Watch launchTime (NewWatcher root required delay) visits).2)
  ∧ list_to_set (Id <$> (Watch launchTime (NewWatcher root required delay) visits).2)
    ⊆ ready (Watch launchTime (NewWatcher root required delay) visits).1.
Proof.
  assert (filed_by_id (NewWatcher root required delay)) as Hw.
  { intros id g Hg. simpl in Hg. by rewrite lookup_empty in Hg. }
  destruct (Watch_single_claim launchTime visits _ Hw) as [Hnodup Hin].
  split; [done|].
  intros id (g & -> & Hg)%elem_of_list_to_set%list_elem_of_fmap.
  by apply Hin.
Qed.

(** With one required prefix: the file is found in the first round, is
    unchanged in the second, which claims the group and calls
    [Process]; the rounds after that ignore it. *)
Example one_dispatch :
  Id <$> (Watch 100 (NewWatcher "/data" ["A"] 0)
            [first_file; first_file; first_file; first_file]).2
  = ["1_2_3_4"].
Proof. vm_compute. reflexivity. Qed.

(** *** The found-count *)

Lemma wrap_int_small n : 0 ≤ n ≤ max_int → wrap_int n = n.
Proof.
  unfold wrap_int, max_int. intros Hn.
  rewrite Z.mod_small; lia.
Qed.

Lemma wrap_int_succ n : wrap_int (wrap_int n + 1) = wrap_int (n + 1).
Proof.
  unfold wrap_int.
  replace ((n + 2 ^ 63) mod 2 ^ 64 - 2 ^ 63 + 1 + 2 ^ 63)
    with ((n + 2 ^ 63) mod 2 ^ 64 + 1) by lia.
  rewrite Zplus_mod_idemp_l. f_equal. f_equal. lia.
Qed.

Lemma record_file_size grp p inf :
  size (Files (record_file grp p inf))
  = match Files grp !! FileInfo_Name inf with
    | Some _ => size (Files grp)
    | None => S (size (Files grp))
    end.
Proof.
  unfold record_file. destruct (Files grp !! FileInfo_Name inf) as [f|] eqn:E; simpl.
  - by rewrite map_size_insert_Some.
  - by rewrite map_size_insert_None.
Qed.

Lemma record_file_counts_files grp p inf :
  counts_files grp → counts_files (record_file grp p inf).
Proof.
  unfold counts_files. intros Hc. rewrite record_file_size.
  unfold record_file. destruct (Files grp !! FileInfo_Name inf); simpl; [done|].
  rewrite Hc, wrap_int_succ. f_equal. lia.
Qed.

Lemma walkFn_counts_files launchTime w v :
  (∀ id g, found w !! id = Some g → counts_files g) →
  ∀ id g, found (watcher (walkFn launchTime w v)) !! id = Some g → counts_files g.
Proof.
  intros Hw.
  destruct (walkFn_cases launchTime w v)
    as [[-> _]|(id & grp & stable & _ & Hgrp & Hfound & _)]; [done|].
  intros id' g. rewrite Hfound, lookup_insert. case_decide as Hid.
  - intros [= <-]. apply record_file_counts_files.
    destruct Hgrp as [Hgrp|[_ ->]]; [by eapply Hw|].
    unfold counts_files. simpl. by rewrite map_size_empty.
  - apply Hw.
Qed.

Lemma Watch_counts_files launchTime visits w :
  (∀ id g, found w !! id = Some g → counts_files g) →
  ∀ id g, found (Watch launchTime w visits).1 !! id = Some g → counts_files g.
Proof.
  revert w. induction visits as [|v rest IH]; intros w Hw; [done|].
  rewrite Watch_cons. simpl. apply IH. by apply walkFn_counts_files.
Qed.

(** C4, as stated, fails: with one required prefix, a group that is
    found to hold two files has a found-count of two. *)
Lemma C4_found_count_counterexample :
  ∃ g, found (Watch 100 (NewWatcher "/data" ["A"] 0) [first_file; second_file]).1
         !! "1_2_3_4" = Some g
       ∧ Z.of_nat (length ["A"]) < RequiredFound g.
Proof.
  eexists. split; [vm_compute; reflexivity|]. vm_compute. reflexivity.
Qed.

(** C4, amended: in every state the watcher reaches, the found-count of
    a group is the number of files the group holds, one per distinct
    file name (as long as that number fits an [int]); one more call of
    the callback leaves the group in place and its found-count either
    unchanged or one higher.  The number of required prefixes does not
    bound it. *)
Theorem C4_found_count_monotone launchTime root required delay visits v id g :
  found (Watch launchTime (NewWatcher root required delay) visits).1 !! id = Some g →
  Z.of_nat (size (Files g)) < max_int →
  RequiredFound g = Z.of_nat (size (Files g))
  ∧ ∃ g', found (watcher (walkFn launchTime
                   (Watch launchTime (NewWatcher root required delay) visits).1 v))
            !! id = Some g'
          ∧ RequiredFound g ≤ RequiredFound g' ≤ RequiredFound g + 1
          ∧ RequiredFound g' = Z.of_nat (size (Files g')).
Proof.
  set (w := (Watch launchTime (NewWatcher root required delay) visits).1).
  intros Hg Hsize.
  assert (∀ id g, found w !! id = Some g → counts_files g) as Hw.
  { apply Watch_counts_files. intros id' g' Hg'. simpl in Hg'.
    by rewrite lookup_empty in Hg'. }
  assert (RequiredFound g = Z.of_nat (size (Files g))) as Hcount.
  { rewrite (Hw _ _ Hg). apply wrap_int_small. lia. }
  split; [done|].
  pose proof (walkFn_counts_files launchTime w v Hw) as Hw'.
  destruct (walkFn_cases launchTime w v)
    as [[Heq _]|(id0 & grp & stable & _ & Hgrp & Hfound & _)].
  { exists g. rewrite Heq. split; [done|]. split; [lia|done]. }
  destruct (decide (id0 = id)) as [->|Hne].
  - destruct Hgrp as [Hgrp|[Hnone _]]; [|congruence].
    assert (grp = g) as -> by congruence.
    exists (record_file g (visit_path v) (visit_info v)).
    assert (found (watcher (walkFn launchTime w v)) !! id
            = Some (record_file g (visit_path v) (visit_info v))) as Hg'.
    { by rewrite Hfound, lookup_insert_eq. }
    split; [done|].
    pose proof (Hw' _ _ Hg') as Hc. unfold counts_files in Hc.
    pose proof (record_file_size g (visit_path v) (visit_info v)) as Hs.
    rewrite Hc, Hcount.
    destruct (Files g !! FileInfo_Name (visit_info v)); rewrite Hs;
      rewrite wrap_int_small by lia; lia.
  - exists g. split; [by rewrite Hfound, lookup_insert_ne|]. split; [lia|done].
Qed.

(** At the counterexample's first file: the group has one file and a
    found-count of one, and the second file takes it to two. *)
Lemma C4_found_count_monotone_witness :
  ∃ g, found (Watch 100 (NewWatcher "/data" ["A"] 0) [first_file]).1
         !! "1_2_3_4" = Some g
       ∧ RequiredFound g = 1
       ∧ ∃ g', found (watcher (walkFn 100
                        (Watch 100 (NewWatcher "/data" ["A"] 0) [first_file]).1
                        second_file)) !! "1_2_3_4" = Some g'
               ∧ RequiredFound g' = 2.
Proof.
  eexists. split; [vm_compute; reflexivity|].
  edestruct (C4_found_count_monotone 100 "/data" ["A"] 0 [first_file]
               second_file "1_2_3_4") as (Hcount & g' & Hg' & _ & Hcount').
  { vm_compute. reflexivity. }
  { vm_compute. reflexivity. }
  split; [vm_compute; reflexivity|].
  exists g'. split; [exact Hg'|].
  rewrite Hcount'. vm_compute in Hg'. injection Hg' as <-. vm_compute. reflexivity.
Defined.

(** *** [AnyChanged] *)

Lemma AnyChanged_range_existsb stat files :
  Forall (λ f, ∃ inf, stat (File_Fullpath f) = Ok inf) files →
  AnyChanged_range stat files = Ok (existsb (grew stat) files).
Proof.
  induction 1 as [|f files [inf Hinf] _ IH]; simpl; [done|].
  unfold grew at 1. rewrite Hinf.
  destruct (After _ _ || _); [done|]. exact IH.
Qed.

Lemma existsb_grew_elem_of stat files :
  existsb (grew stat) files = true ↔ ∃ f, f ∈ files ∧ grew stat f = true.
Proof.
  rewrite existsb_exists. split; intros (f & Hf & Hgrew); exists f;
    (split; [by apply list_elem_of_In|done]).
Qed.

Lemma elem_of_Files_range (fg : FileGroup) (f : File) :
  f ∈ (map_to_list (Files fg)).*2 ↔ ∃ name, Files fg !! name = Some f.
Proof.
  rewrite list_elem_of_fmap. split.
  - intros ([name f'] & -> & Hin). exists name. by apply elem_of_map_to_list.
  - intros [name Hname]. exists (name, f). split; [done|].
    by apply elem_of_map_to_list.
Qed.

(** C5, as stated, fails: every file of the group stats successfully and
    one of them has a live size that differs from the recorded size, yet
    [AnyChanged] does not return true. *)
Lemma C5_AnyChanged_counterexample :
  (∀ name f, Files tracked_group !! name = Some f →
             ∃ inf, Stat shrunk_fs (File_Fullpath f) = Ok inf)
  ∧ ¬ (AnyChanged shrunk_fs tracked_group = Ok true
       ↔ ∃ name f, Files tracked_group !! name = Some f
                   ∧ differs (Stat shrunk_fs) f).
Proof.
  split.
  - intros name f _. eexists. reflexivity.
  - intros [_ Hback].
    assert (AnyChanged shrunk_fs tracked_group = Ok false) as Hfalse
      by (vm_compute; reflexivity).
    rewrite Hfalse in Hback. discriminate Hback.
    eexists "A_1_2_3_4_x.h5", _. split; [vm_compute; reflexivity|].
    eexists. split; [reflexivity|]. left. simpl. discriminate.
Qed.

(** C5, amended: for a group whose tracked files all stat successfully,
    [AnyChanged] returns without an error, and it returns true if and
    only if at least one tracked file has a live modification time after
    the recorded one or a live size above the recorded one, in whatever
    order the files are visited.  A file that shrank, or whose
    modification time went back, does not count. *)
Theorem C5_AnyChanged_iff_grew (fs : FS) (fg : FileGroup) :
  (∀ files, range_order fs files ≡ₚ files) →
  (∀ name f, Files fg !! name = Some f →
             ∃ inf, Stat fs (File_Fullpath f) = Ok inf) →
  (∃ changed, AnyChanged fs fg = Ok changed)
  ∧ (AnyChanged fs fg = Ok true
     ↔ ∃ name f inf,
         Files fg !! name = Some f
         ∧ Stat fs (File_Fullpath f) = Ok inf
         ∧ (File_LastModified f < FileInfo_ModTime inf
            ∨ File_Size f < FileInfo_Size inf)).
Proof.
  intros Hperm Hstat. unfold AnyChanged.
  set (files := (map_to_list (Files fg)).*2).
  assert (∀ f, f ∈ range_order fs files ↔ ∃ name, Files fg !! name = Some f)
    as Hrange.
  { intros f. rewrite (Hperm files). apply elem_of_Files_range. }
  rewrite AnyChanged_range_existsb.
  2: { apply Forall_forall. intros f [name Hname]%Hrange. by eapply Hstat. }
  split; [by eexists|].
  split.
  - intros [= (f & [name Hname]%Hrange & Hgrew)%existsb_grew_elem_of].
    unfold grew in Hgrew.
    destruct (Stat fs (File_Fullpath f)) as [inf|] eqn:Hinf; [|done].
    exists name, f, inf. split; [done|]. split; [done|].
    unfold After in Hgrew. apply orb_true_iff in Hgrew. lia.
  - intros (name & f & inf & Hname & Hinf & Hgrew). f_equal.
    apply existsb_grew_elem_of. exists f. split; [apply Hrange; eauto|].
    unfold grew, After. rewrite Hinf. apply orb_true_iff. lia.
Qed.

(** The one-file group on a file system where the file has grown. *)
Lemma C5_AnyChanged_iff_grew_witness :
  AnyChanged grown_fs tracked_group = Ok true
  ↔ ∃ name f inf,
      Files tracked_group !! name = Some f
      ∧ Stat grown_fs (File_Fullpath f) = Ok inf
      ∧ (File_LastModified f < FileInfo_ModTime inf
         ∨ File_Size f < FileInfo_Size inf).
Proof.
  apply (C5_AnyChanged_iff_grew grown_fs tracked_group).
  - intros files. reflexivity.
  - intros name f _. eexists. reflexivity.
Defined.

(** ** The pipeline engine *)

Section pipeline_properties.
Context `{GoRuntime}.

Local Abbreviation Value := (Value float64).
Local Abbreviation Ctx := (gmap string Value).

Lemma copy_context_eq (ctx : Ctx) : copy_context ctx = ctx.
Proof. apply list_to_map_to_list. Qed.

Lemma lookup_write_back (ctx nctx : Ctx) k :
  write_back ctx nctx !! k = (λ _, default VNil (nctx !! k)) <$> ctx !! k.
Proof. unfold write_back. rewrite map_lookup_imap. by destruct (ctx !! k). Qed.

Lemma eval_local_app pre post (ctx n0 : Ctx) :
  eval_local (pre ++ post) ctx n0
  = match eval_local pre ctx n0 with
    | Ok n1 => eval_local post ctx n1
    | Err e => Err e
    end.
Proof.
  revert n0. induction pre as [|v pre IH]; intros n0; simpl; [done|].
  destruct (Var_Eval v ctx); [apply IH|done].
Qed.

(** The copy keeps every key it starts with, gains the name of every
    local variable, and is untouched at every other key. *)
Lemma eval_local_lookup vars (ctx n0 n : Ctx) :
  eval_local vars ctx n0 = Ok n →
  (∀ k, is_Some (n0 !! k) → is_Some (n !! k))
  ∧ (∀ v, v ∈ vars → is_Some (n !! Var_Name v))
  ∧ (∀ k, (∀ v, v ∈ vars → Var_Name v ≠ k) → n !! k = n0 !! k).
Proof.
  revert n0. induction vars as [|v vars IH]; intros n0; simpl.
  { intros [= ->]. split; [done|]. split; [|done].
    intros v Hv. by apply elem_of_nil in Hv. }
  destruct (Var_Eval v ctx) as [val|] eqn:Hval; [|done].
  intros (Hkeep & Hvars & Hother)%IH. split; [|split].
  - intros k Hk. apply Hkeep. rewrite lookup_insert. by case_decide.
  - intros u [->|Hu]%elem_of_cons; [|by apply Hvars].
    apply Hkeep. rewrite lookup_insert_eq. by eexists.
  - intros k Hk. rewrite Hother.
    + apply lookup_insert_ne, Hk, elem_of_cons. by left.
    + intros u Hu. apply Hk, elem_of_cons. by right.
Qed.

(** The last local variable of a name decides the copy's value. *)
Lemma eval_local_last pre v post (ctx n0 n : Ctx) val :
  eval_local (pre ++ v :: post) ctx n0 = Ok n →
  (∀ u, u ∈ post → Var_Name u ≠ Var_Name v) →
  Var_Eval v ctx = Ok val →
  n !! Var_Name v = Some val.
Proof.
  rewrite eval_local_app.
  destruct (eval_local pre ctx n0) as [n1|]; [|done]. simpl.
  intros Hn Hpost Hval. rewrite Hval in Hn.
  apply eval_local_lookup in Hn as (_ & _ & Hother).
  rewrite Hother by done. apply lookup_insert_eq.
Qed.

(** Every local variable is evaluated against the map the caller
    passed: a failure of any of them is the result, whatever the copy
    holds by then. *)
Lemma eval_local_first_error pre v post (ctx n0 : Ctx) e :
  Forall (λ u, ∃ val, Var_Eval u ctx = Ok val) pre →
  Var_Eval v ctx = Err e →
  eval_local (pre ++ v :: post) ctx n0 = Err e.
Proof.
  intros Hpre Hv. revert n0.
  induction Hpre as [|u pre [val Hval] _ IH]; intros n0; simpl.
  - by rewrite Hv.
  - rewrite Hval. apply IH.
Qed.

(** A key that no local variable of the step names has, in the copy and
    in the caller's map after the call, the value the caller's map had
    for it (or is in neither). *)
Lemma Step_EvalVariables_untouched (s : Step) (ctx ctx' nctx : Ctx) k :
  Step_EvalVariables s ctx = (ctx', Ok nctx) →
  (∀ v, v ∈ Step_Variables s → Var_Name v ≠ k) →
  nctx !! k = ctx !! k ∧ ctx' !! k = ctx !! k.
Proof.
  unfold Step_EvalVariables. intros Heval Hk.
  destruct (eval_local (Step_Variables s) ctx (copy_context ctx))
    as [n|] eqn:Hlocal; [|done].
  injection Heval as <- <-. rewrite copy_context_eq in Hlocal.
  apply eval_local_lookup in Hlocal as (_ & _ & Hother).
  specialize (Hother k Hk). split; [done|].
  rewrite lookup_write_back, Hother. by destruct (ctx !! k).
Qed.

(** C2: when the local variables of a step evaluate, [Step.Exec] leaves
    the shared context with the keys it had before the step, each with
    the value the step-local copy ends with for it (the value of the
    last local variable of that name, if there is one); a key the step
    introduces is in the copy, against which the command is rendered,
    and is not in the shared context afterwards; and the steps that
    follow run on the shared context as this step left it.  A key that
    the step does not declare keeps, in the copy and in the shared
    context, the value it had; a key of the shared context that the
    step declares holds, after the step, the value of its last
    declaration; and a later step that runs on the shared context as
    this step left it and does not declare a key finds that value for
    it, in the copy its command is rendered against and in the shared
    context it leaves (a step that declares nothing renders its command
    against that very context and leaves it as it is). *)
Theorem C2_partial_leakage (s : Step) (ctx ctx' nctx : Ctx) :
  Step_EvalVariables s ctx = (ctx', Ok nctx) →
  (Step_Exec s ctx).1 = ctx'
  ∧ dom ctx' = dom ctx
  ∧ (∀ k, is_Some (ctx !! k) → ctx' !! k = nctx !! k)
  ∧ (∀ k, ctx !! k = None → ctx' !! k = None)
  ∧ (∀ v, v ∈ Step_Variables s → is_Some (nctx !! Var_Name v))
  ∧ (∀ pre v post val,
       Step_Variables s = pre ++ v :: post →
       (∀ u, u ∈ post → Var_Name u ≠ Var_Name v) →
       Var_Eval v ctx = Ok val →
       nctx !! Var_Name v = Some val)
  ∧ (∀ command buf,
       Step_command s = Some command →
       Template_Execute command nctx = Ok buf →
       spawned (Step_Exec s ctx).2 = [(hd "" (tokenize buf), tl (tokenize buf))])
  ∧ (∀ rest res,
       ret (Step_Exec s ctx).2 = Return None res →
       exec_steps (s :: rest) ctx
       = ((exec_steps rest ctx').1,
          {| spawned := spawned (Step_Exec s ctx).2
                        ++ spawned (exec_steps rest ctx').2;
             ret := ret (exec_steps rest ctx').2 |}))
  ∧ (∀ k, (∀ v, v ∈ Step_Variables s → Var_Name v ≠ k) →
          nctx !! k = ctx !! k ∧ ctx' !! k = ctx !! k)
  ∧ (∀ pre v post val,
       Step_Variables s = pre ++ v :: post →
       (∀ u, u ∈ post → Var_Name u ≠ Var_Name v) →
       Var_Eval v ctx = Ok val →
       is_Some (ctx !! Var_Name v) →
       ctx' !! Var_Name v = Some val)
  ∧ (∀ (later : Step) ctx'' nctx' k,
       Step_EvalVariables later ctx' = (ctx'', Ok nctx') →
       (∀ v, v ∈ Step_Variables later → Var_Name v ≠ k) →
       nctx' !! k = ctx' !! k ∧ ctx'' !! k = ctx' !! k)
  ∧ (∀ later : Step,
       Step_Variables later = [] →
       Step_EvalVariables later ctx' = (ctx', Ok ctx')
       ∧ (Step_Exec later ctx').1 = ctx'
       ∧ ∀ command buf,
           Step_command later = Some command →
           Template_Execute command ctx' = Ok buf →
           spawned (Step_Exec later ctx').2
           = [(hd "" (tokenize buf), tl (tokenize buf))]).
Proof.
  intros Heval.
  pose proof (λ k, Step_EvalVariables_untouched s ctx ctx' nctx k Heval)
    as Huntouched.
  assert ((Step_Exec s ctx).1 = ctx') as Hshared.
  { unfold Step_Exec. rewrite Heval.
    destruct (Step_command s) as [command|]; [|done].
    destruct (Template_Execute command nctx); [|done].
    by destruct (Command_Output _ _). }
  unfold Step_EvalVariables in Heval.
  destruct (eval_local (Step_Variables s) ctx (copy_context ctx))
    as [n|] eqn:Hlocal; [|done].
  injection Heval as <- <-. rewrite copy_context_eq in Hlocal.
  pose proof (eval_local_lookup _ _ _ _ Hlocal) as (Hkeep & Hvars & _).
  split; [done|]. repeat apply conj.
  - apply set_eq. intros k. rewrite !elem_of_dom, lookup_write_back.
    by rewrite fmap_is_Some.
  - intros k Hk. rewrite lookup_write_back.
    destruct (Hkeep k Hk) as [val ->]. by destruct Hk as [? ->].
  - intros k Hk. by rewrite lookup_write_back, Hk.
  - done.
  - intros pre v post val Hs Hpost Hval. rewrite Hs in Hlocal.
    by apply (eval_local_last pre v post ctx ctx n val).
  - intros command buf Hcommand Hbuf. unfold Step_Exec, Step_EvalVariables.
    rewrite copy_context_eq, Hlocal, Hcommand, Hbuf.
    by destruct (Command_Output _ _).
  - intros rest res Hret. simpl.
    destruct (Step_Exec s ctx) as [c [sp r]]. simpl in *. subst c r.
    by destruct (exec_steps rest _).
  - done.
  - intros pre v post val Hs Hpost Hval [old Hold]. rewrite Hs in Hlocal.
    rewrite lookup_write_back, Hold. simpl.
    by rewrite (eval_local_last pre v post ctx ctx n val).
  - intros later ctx'' nctx' k. apply Step_EvalVariables_untouched.
  - intros later Hnone.
    assert (Step_EvalVariables later (write_back ctx n)
            = (write_back ctx n, Ok (write_back ctx n))) as Hlater.
    { unfold Step_EvalVariables. rewrite Hnone, copy_context_eq. simpl.
      f_equal. apply map_eq. intros k. rewrite lookup_write_back.
      by destruct (write_back ctx n !! k). }
    split; [done|]. unfold Step_Exec. rewrite Hlater. split.
    + destruct (Step_command later) as [command|]; [|done].
      destruct (Template_Execute command _); [|done].
      by destruct (Command_Output _ _).
    + intros command buf -> ->. by destruct (Command_Output _ _).
Qed.

(** Among variables one of which fails there is a first that fails. *)
Lemma first_failure vars (ctx : Ctx) v e :
  v ∈ vars → Var_Eval v ctx = Err e →
  ∃ pre u post e',
    vars = pre ++ u :: post
    ∧ Forall (λ u, ∃ val, Var_Eval u ctx = Ok val) pre
    ∧ Var_Eval u ctx = Err e'.
Proof.
  induction vars as [|w vars IH]; intros Hin Hv.
  { by apply elem_of_nil in Hin. }
  destruct (Var_Eval w ctx) as [val|e0] eqn:Hw.
  - apply elem_of_cons in Hin as [->|Hin]; [congruence|].
    destruct (IH Hin Hv) as (pre & u & post & e' & -> & Hpre & Hu).
    exists (w :: pre), u, post, e'. split; [done|]. split; [|done].
    constructor; [by exists val|done].
  - exists [], w, vars, e0. split; [done|]. split; [constructor|done].
Qed.

(** C10: when a local variable of a step fails to evaluate,
    [Step.EvalVariables] returns an error, the one of the first local
    variable that fails, and the shared context is the map that was
    passed in, with no key added, removed or changed: the write-back is
    not reached.  [Step.Exec] returns the same error and spawns
    nothing. *)
Theorem C10_error_leaves_context (s : Step) (ctx : Ctx) v e :
  v ∈ Step_Variables s →
  Var_Eval v ctx = Err e →
  ∃ pre u post e',
    Step_Variables s = pre ++ u :: post
    ∧ Forall (λ u, ∃ val, Var_Eval u ctx = Ok val) pre
    ∧ Var_Eval u ctx = Err e'
    ∧ Step_EvalVariables s ctx = (ctx, Err e')
    ∧ Step_Exec s ctx = (ctx, {| spawned := []; ret := Return (Some e') "" |}).
Proof.
  intros Hin Hv.
  destruct (first_failure _ ctx v e Hin Hv) as (pre & u & post & e' & Hs & Hpre & Hu).
  exists pre, u, post, e'. split; [done|]. split; [done|]. split; [done|].
  assert (Step_EvalVariables s ctx = (ctx, Err e')) as Heval.
  { unfold Step_EvalVariables. rewrite Hs.
    by rewrite (eval_local_first_error pre u post ctx _ e' Hpre Hu). }
  split; [done|]. unfold Step_Exec. by rewrite Heval.
Qed.

(** C7: a variable as [UnmarshalYAML] builds it and [Prepare] compiles
    it.  If its raw value is not a string, [Eval] returns that value.
    If it is a string, [Prepare] has parsed it as a template and [Eval]
    executes the template on the context: an error of the execution is
    returned; otherwise the rendered text is tried as a boolean, then as
    a 64-bit integer, then as a float, the first that parses being the
    result, and the text itself if none does.  In particular [true]
    gives the boolean, [42] the integer, [3.14] the float and [hello]
    the string. *)
Theorem C7_eval_coercion (v v' : Var) (ctx : Ctx) :
  Var_expression v = None →
  Var_Prepare v = (v', None) →
  match Var_Value v with
  | VString raw =>
    ∃ t, Template_Parse (Var_Name v) lDelim rDelim raw = Ok t
         ∧ (∀ e, Template_Execute t ctx = Err e → Var_Eval v' ctx = Err e)
         ∧ (∀ str, Template_Execute t ctx = Ok str →
              (∀ b, ParseBool str = Some b → Var_Eval v' ctx = Ok (VBool b))
              ∧ (∀ i, ParseBool str = None → ParseInt str = Some i →
                      Var_Eval v' ctx = Ok (VInt i))
              ∧ (∀ f, ParseBool str = None → ParseInt str = None →
                      ParseFloat str = Some f → Var_Eval v' ctx = Ok (VFloat f))
              ∧ (ParseBool str = None → ParseInt str = None →
                 ParseFloat str = None → Var_Eval v' ctx = Ok (VString str)))
         ∧ (Template_Execute t ctx = Ok "true" → Var_Eval v' ctx = Ok (VBool true))
         ∧ (Template_Execute t ctx = Ok "42" → Var_Eval v' ctx = Ok (VInt 42))
         ∧ (∀ f, Template_Execute t ctx = Ok "3.14" → ParseFloat "3.14" = Some f →
                 Var_Eval v' ctx = Ok (VFloat f))
         ∧ (Template_Execute t ctx = Ok "hello" → ParseFloat "hello" = None →
            Var_Eval v' ctx = Ok (VString "hello"))
  | other => Var_Eval v' ctx = Ok other
  end.
Proof.
  intros Hnil. unfold Var_Prepare.
  destruct (Var_Value v) as [|b|i|f|raw] eqn:Hvalue;
    try (intros [= <-]; unfold Var_Eval; by rewrite Hnil, Hvalue).
  destruct (Template_Parse (Var_Name v) lDelim rDelim raw) as [t|] eqn:Ht; [|done].
  intros [= <-]. exists t. split; [done|].
  unfold Var_Eval. simpl.
  split; [by intros e ->|].
  split; [|split; [|split; [|split]]].
  - intros str ->. split; [|split; [|split]].
    + by intros b ->.
    + by intros i -> ->.
    + by intros f -> -> ->.
    + by intros -> -> ->.
  - by intros ->.
  - by intros ->.
  - by intros f -> ->.
  - by intros -> ->.
Qed.

End pipeline_properties.

(** ** Start-up *)

Section startup_properties.
Context `{GoRuntime}.

(** X28: the errors [readConfig] returns: a missing argument, or what reading
    the file, decoding it or parsing the period returned.  What
    [Prepare] returns is not among them. *)
Lemma readConfig_errors (env : Startup) (g : Globals) e :
  (readConfig env g).2 = Some e →
  e = noConfig
  ∨ (∃ file, ReadFile env file = Err e)
  ∨ (∃ bb, Unmarshal env bb = Err e)
  ∨ (∃ d, ParseDuration env d = Err e).
Proof.
  unfold readConfig.
  destruct (Args env) as [|arg0 [|file rest]];
    [intros [= <-]; by left..|].
  destruct (ReadFile env file) as [bb|e1] eqn:Hfile.
  2: { intros [= <-]. right. left. by exists file. }
  destruct (Unmarshal env bb) as [c|e2] eqn:Hyaml.
  2: { intros [= <-]. right. right. left. by exists bb. }
  destruct (nonempty (cfg_Period c)); [|done].
  destruct (ParseDuration env (cfg_Period c)) as [dur|e3] eqn:Hdur; [done|].
  intros [= <-]. right. right. right. by exists (cfg_Period c).
Qed.

(** [main] exits only on an error of [readConfig]. *)
Lemma main_watches (env : Startup) :
  (readConfig env globals0).2 = None → ∃ w g, main env = Watching w g.
Proof.
  unfold main. destruct (readConfig env globals0) as [g [e|]]; [done|].
  intros _. by eexists _, _.
Qed.

End startup_properties.

(** ** Runs on the reference runtime *)

Import Reference.

Example leakage_scenario :
  Pipeline_Exec {| Pipeline_Variables := (Vars_Prepare [var "X" (VInt 1)]).1;
                   Pipeline_Steps := [leaking_step; plain_step] |} ∅
  = ({["X" := VInt 2]},
     {| spawned := [("echo", ["2"; "9"]); ("echo", ["2"; "<no"; "value>"])];
        ret := Return None "" |}).
Proof. reflexivity. Qed.

(** The first step of the scenario, on the shared context [X = 1],
    [Z = 3]: [X] is 2 afterwards, [Z] is still 3, [Y] is not there, the
    command saw [X] and [Y], and the second step, which declares
    nothing, is rendered with [X = 2] and no [Y]. *)
Lemma C2_partial_leakage_witness :
  (Step_Exec leaking_step {["X" := VInt 1; "Z" := VInt 3]}).1
  = {["X" := VInt 2; "Z" := VInt 3]}
  ∧ ({["X" := VInt 2; "Z" := VInt 3]} : gmap string (Value decimal)) !! "Y" = None
  ∧ spawned (Step_Exec leaking_step {["X" := VInt 1; "Z" := VInt 3]}).2
    = [("echo", ["2"; "9"])]
  ∧ ({["X" := VInt 2; "Z" := VInt 3]} : gmap string (Value decimal)) !! "Z"
    = Some (VInt 3)
  ∧ ({["X" := VInt 2; "Z" := VInt 3]} : gmap string (Value decimal)) !! "X"
    = Some (VInt 2)
  ∧ spawned (Step_Exec plain_step {["X" := VInt 2; "Z" := VInt 3]}).2
    = [("echo", ["2"; "<no"; "value>"])].
Proof.
  destruct (C2_partial_leakage leaking_step {["X" := VInt 1; "Z" := VInt 3]}
              {["X" := VInt 2; "Z" := VInt 3]}
              {["X" := VInt 2; "Y" := VInt 9; "Z" := VInt 3]})
    as (Hshared & _ & _ & Hnew & _ & _ & Hspawned & _ & Hkept & Hlast & _ & Hlater).
  { reflexivity. }
  split; [exact Hshared|]. split; [|split; [|split; [|split]]].
  - apply Hnew. reflexivity.
  - rewrite (Hspawned [Text "echo "; Field "X" []; Text " "; Field "Y" []]
               "echo 2 9").
    + reflexivity.
    + reflexivity.
    + reflexivity.
  - destruct (Hkept "Z") as [_ HZ]; [|exact HZ].
    intros v Hv. change (Step_Variables leaking_step)
      with [var "X" (VInt 2); var "Y" (VInt 9)] in Hv.
    apply elem_of_cons in Hv as [->|Hv]; [discriminate|].
    apply list_elem_of_singleton in Hv as ->. discriminate.
  - apply (Hlast [] (var "X" (VInt 2)) [var "Y" (VInt 9)] (VInt 2)).
    + reflexivity.
    + intros u Hu. apply list_elem_of_singleton in Hu as ->. discriminate.
    + reflexivity.
    + eexists. reflexivity.
  - destruct (Hlater plain_step) as (_ & _ & Hplain); [reflexivity|].
    rewrite (Hplain [Text "echo "; Field "X" []; Text " "; Field "Y" []]
               "echo 2 <no value>").
    + reflexivity.
    + reflexivity.
    + reflexivity.
Defined.

(** A step whose second variable fails: the context comes back as it
    was passed, [X] still 1. *)
Lemma C10_error_leaves_context_witness :
  Step_Exec failing_step {["Id" := VString "g"; "X" := VInt 1]}
  = ({["Id" := VString "g"; "X" := VInt 1]},
     {| spawned := []; ret := Return (Some "can't evaluate field x") "" |}).
Proof.
  destruct (C10_error_leaves_context failing_step
              {["Id" := VString "g"; "X" := VInt 1]}
              failing_var "can't evaluate field x")
    as (pre & u & post & e' & _ & _ & _ & Heval & Hexec).
  - apply list_elem_of_In. right. left. reflexivity.
  - reflexivity.
  - rewrite Hexec.
    assert (Step_EvalVariables failing_step {["Id" := VString "g"; "X" := VInt 1]}
            = ({["Id" := VString "g"; "X" := VInt 1]},
               Err "can't evaluate field x")) as Hrun by reflexivity.
    rewrite Hrun in Heval. injection Heval as <-. reflexivity.
Defined.

(** A variable whose template renders the text [3.14]. *)
Lemma C7_eval_coercion_witness :
  Var_Eval {| Var_Name := "Scale"; Var_Value := VString "((.Factor))";
              Var_expression := Some [Field "Factor" []] |}
           {["Factor" := VString "3.14"]}
  = Ok (VFloat {| mantissa := 314; scale := 2 |}).
Proof.
  pose proof (C7_eval_coercion (var "Scale" (VString "((.Factor))"))
                {| Var_Name := "Scale"; Var_Value := VString "((.Factor))";
                   Var_expression := Some [Field "Factor" []] |}
                {["Factor" := VString "3.14"]}) as Hc.
  destruct Hc as (t & Ht & _ & _ & _ & _ & Hfloat & _).
  - reflexivity.
  - reflexivity.
  - apply Hfloat.
    + injection Ht as <-. reflexivity.
    + reflexivity.
Defined.

Example eval_coercion_examples :
  map (λ raw, Var_Eval (Var_Prepare (var "V" raw)).1 ∅)
      [VString "true"; VString "42"; VString "3.14"; VString "hello";
       VString "1"; VString "9223372036854775808"; VInt 7; VBool false; VNil]
  = [Ok (VBool true); Ok (VInt 42); Ok (VFloat {| mantissa := 314; scale := 2 |});
     Ok (VString "hello"); Ok (VBool true);
     Ok (VFloat {| mantissa := 9223372036854775808; scale := 0 |});
     Ok (VInt 7); Ok (VBool false); Ok VNil].
Proof. reflexivity. Qed.

(** C9, on the code: [Step.EvalVariables] renders every local variable
    against the map it was passed, not against the copy it fills.  With
    [A = 5] inherited and the step declaring [A = 7] and then
    [B = ((.A))], the copy ends with [A = 7] and [B = 5]: the later
    variable does not see the earlier one.  [Pipeline.EvalVariables],
    given the same variables and context, yields [B = 7]. *)
Theorem C9_local_variables_see_inherited_only :
  Step_EvalVariables shadowing_step {["A" := VInt 5]}
  = ({["A" := VInt 7]}, Ok {["A" := VInt 7; "B" := VInt 5]})
  ∧ spawned (Step_Exec shadowing_step {["A" := VInt 5]}).2 = [("echo", ["7"; "5"])]
  ∧ Pipeline_EvalVariables
      {| Pipeline_Variables := shadowing_vars; Pipeline_Steps := [] |}
      {["A" := VInt 5]}
    = ({["A" := VInt 7; "B" := VInt 7]}, Ok {["A" := VInt 7; "B" := VInt 7]}).
Proof.
  split; [|split]; reflexivity.
Qed.

(** C6, on the code: [readConfig] calls [pipeline.Prepare()] and drops
    what it returns.  On a configuration whose step command does not
    compile, [Prepare] returns the compile error, [readConfig] returns
    no error, and [main] goes on to [Watch]; the step is left without a
    compiled command, and executing it panics. *)
Theorem C6_compile_error_is_dropped :
  (Pipeline_Prepare (cfg_Pipeline broken_config)).2 = Some "unclosed action"
  ∧ (readConfig broken_startup globals0).2 = None
  ∧ (∃ g, main broken_startup
          = Watching (NewWatcher "/data" ["SVM10"; "GMTCO"] (30 * Second)) g
          ∧ Step_command <$> Pipeline_Steps (pipeline g) = [None]
          ∧ ret (Pipeline_Exec (pipeline g) {["OutputDir" := VString "/output";
                                              "Id" := VString "g"]}).2
            = Panic).
Proof.
  split; [reflexivity|]. split; [reflexivity|].
  eexists. split; [reflexivity|].
  split; reflexivity.
Qed.

(** * Further properties *)

(** ** The tokenizer, on ASCII text *)

Lemma byte_of_bounds c : 0 ≤ byte_of c < 256.
Proof.
  unfold byte_of. pose proof (N_ascii_bounded c). lia.
Qed.

Lemma ascii_of_byte_of c : ascii_of (byte_of c) = c.
Proof.
  unfold ascii_of. rewrite Z.mod_small by apply byte_of_bounds.
  unfold byte_of. rewrite N2Z.id. apply ascii_N_embedding.
Qed.

Lemma bytes_of_chars s : bytes_of s = byte_of <$> chars s.
Proof. induction s as [|c s IH]; simpl; [done|]. by rewrite IH. Qed.

Lemma append_cons c s1 s2 : String c s1 +:+ s2 = String c (s1 +:+ s2).
Proof. reflexivity. Qed.

Lemma append_nil_l s : "" +:+ s = s.
Proof. reflexivity. Qed.

Lemma chars_app s1 s2 : chars (s1 +:+ s2) = chars s1 ++ chars s2.
Proof.
  induction s1 as [|c s1 IH]; [done|].
  rewrite append_cons. simpl. by rewrite IH.
Qed.

Lemma append_assoc s1 s2 s3 : (s1 +:+ s2) +:+ s3 = s1 +:+ (s2 +:+ s3).
Proof.
  induction s1 as [|c s1 IH]; [done|].
  by rewrite !append_cons, IH.
Qed.

Lemma append_nil_r s : s +:+ "" = s.
Proof.
  induction s as [|c s IH]; [done|]. by rewrite append_cons, IH.
Qed.

(** [ReadRune] returns ASCII bytes one by one, as themselves. *)
Lemma ReadRunes_from_cons_ascii b rest :
  (b <? 128) = true →
  ReadRunes_from 0 (b :: rest) = b :: ReadRunes_from 0 rest.
Proof.
  intros Hb. cbn [ReadRunes_from]. unfold DecodeRune. by rewrite Hb.
Qed.

Lemma ReadRunes_from_ascii cs rest :
  Forall (λ c, ascii_byte c = true) cs →
  ReadRunes_from 0 ((byte_of <$> cs) ++ rest)
  = (byte_of <$> cs) ++ ReadRunes_from 0 rest.
Proof.
  induction 1 as [|c cs Hc _ IH]; [done|].
  rewrite fmap_cons, <- !app_comm_cons.
  rewrite ReadRunes_from_cons_ascii by done. by rewrite IH.
Qed.

Lemma ReadRunes_ascii s :
  Forall (λ c, ascii_byte c = true) (chars s) →
  ReadRunes s = byte_of <$> chars s.
Proof.
  intros Hs. unfold ReadRunes. rewrite bytes_of_chars.
  rewrite <- (app_nil_r (byte_of <$> chars s)) at 1.
  rewrite ReadRunes_from_ascii by done. simpl. apply app_nil_r.
Qed.

Lemma ReadRunes_ascii_app s rest :
  Forall (λ c, ascii_byte c = true) (chars s) →
  ReadRunes (s +:+ rest) = (byte_of <$> chars s) ++ ReadRunes rest.
Proof.
  intros Hs. unfold ReadRunes.
  rewrite bytes_of_chars, chars_app, fmap_app, <- (bytes_of_chars rest).
  by apply ReadRunes_from_ascii.
Qed.

Lemma WriteRune_ascii a c :
  ascii_byte c = true → WriteRune a (byte_of c) = a +:+ String c "".
Proof.
  unfold ascii_byte, WriteRune, EncodeRune, in_range. intros Hc.
  pose proof (byte_of_bounds c).
  replace ((0 <=? byte_of c) && (byte_of c <=? 127)) with true by lia.
  simpl. by rewrite ascii_of_byte_of.
Qed.

Lemma plain_byte_ascii c : plain_byte c = true → ascii_byte c = true.
Proof. unfold plain_byte, ascii_byte. lia. Qed.

(** Any ASCII byte other than NUL is appended in state [ESCAPED]; a
    plain byte is appended in every state. *)
Lemma lex_rune_ESCAPED l c :
  state l = ESCAPED → ascii_byte c = true → byte_of c ≠ 0 →
  lex_rune l (byte_of c)
  = {| state := ESCAPED; acc := acc l +:+ String c ""; split := split l |}.
Proof.
  intros Hl Hc Hnul. unfold lex_rune, RuneError. unfold ascii_byte in Hc.
  replace ((byte_of c =? 65533) || (byte_of c =? 0)) with false by lia.
  rewrite Hl. unfold write. rewrite Hl.
  by rewrite WriteRune_ascii.
Qed.

Lemma lex_rune_plain l c :
  plain_byte c = true →
  lex_rune l (byte_of c)
  = {| state := state l; acc := acc l +:+ String c ""; split := split l |}.
Proof.
  intros Hc. pose proof (plain_byte_ascii c Hc) as Ha.
  unfold plain_byte, blank_byte in Hc. unfold lex_rune, RuneError.
  replace ((byte_of c =? 65533) || (byte_of c =? 0)) with false by lia.
  replace ((byte_of c =? 32) || (byte_of c =? 10) || (byte_of c =? 9)
           || (byte_of c =? 13)) with false by lia.
  replace (byte_of c =? 39) with false by lia.
  replace (byte_of c =? 34) with false by lia.
  replace (byte_of c =? 92) with false by lia.
  unfold write. rewrite WriteRune_ascii by done.
  by destruct (state l).
Qed.

Lemma lex_plain_word cs l :
  Forall (λ c, plain_byte c = true) cs →
  fold_left lex_rune (byte_of <$> cs) l
  = {| state := state l; acc := acc l +:+ string_of_list_ascii cs;
       split := split l |}.
Proof.
  intros Hcs. revert l. induction Hcs as [|c cs Hc _ IH]; intros l; simpl.
  - rewrite append_nil_r. by destruct l.
  - rewrite IH, lex_rune_plain by done. simpl.
    by rewrite append_assoc, append_cons, append_nil_l.
Qed.

Lemma lex_escaped_text cs l :
  state l = ESCAPED →
  Forall (λ c, ascii_byte c = true ∧ byte_of c ≠ 0) cs →
  fold_left lex_rune (byte_of <$> cs) l
  = {| state := ESCAPED; acc := acc l +:+ string_of_list_ascii cs;
       split := split l |}.
Proof.
  intros Hl Hcs. revert l Hl.
  induction Hcs as [|c cs [Hc Hnul] _ IH]; intros l Hl; simpl.
  - rewrite append_nil_r. destruct l. simpl in Hl. by subst.
  - rewrite IH by (by rewrite lex_rune_ESCAPED).
    rewrite lex_rune_ESCAPED by done. simpl.
    by rewrite append_assoc, append_cons, append_nil_l.
Qed.

Lemma wrap_tokens_nonempty l :
  Forall (λ t, t ≠ "") (split l) → Forall (λ t, t ≠ "") (split (wrap l)).
Proof.
  intros Hl. unfold wrap. simpl.
  destruct (acc l) as [|c a] eqn:Hacc; simpl; [done|].
  apply Forall_app. split; [done|]. by constructor.
Qed.

Lemma lex_rune_tokens_nonempty l r :
  Forall (λ t, t ≠ "") (split l) → Forall (λ t, t ≠ "") (split (lex_rune l r)).
Proof.
  intros Hl. unfold lex_rune.
  destruct ((r =? RuneError) || (r =? 0)); [done|].
  destruct (state l);
    repeat match goal with
           | |- context [if ?b then _ else _] => destruct b
           end;
    try done; by apply wrap_tokens_nonempty.
Qed.

(** X1: whatever the text, no token of the result is the empty string:
    empty arguments cannot be passed to a command. *)
Theorem tokenize_no_empty_token text :
  Forall (λ t, t ≠ "") (tokenize text).
Proof.
  unfold tokenize, lex_run. apply wrap_tokens_nonempty.
  generalize (lex_rune lex_init 0) (lex_rune_tokens_nonempty lex_init 0
                                      (Forall_nil_2 _)).
  induction (ReadRunes text) as [|r rs IH]; intros l Hl; simpl; [done|].
  by apply IH, lex_rune_tokens_nonempty.
Qed.

Lemma lex_words words l :
  Forall plain_word words → state l = DEFAULT → acc l = "" →
  split (wrap (fold_left lex_rune (ReadRunes (Join words " ")) l))
  = split l ++ words.
Proof.
  intros Hwords. revert l.
  induction Hwords as [|w ws [Hne Hw] Hws IH]; intros l Hstate Hacc.
  { simpl. unfold wrap. simpl. by rewrite Hacc, app_nil_r. }
  assert (Forall (λ c, ascii_byte c = true) (chars w)) as Hascii.
  { eapply Forall_impl; [exact Hw|]. apply plain_byte_ascii. }
  assert (split (wrap (fold_left lex_rune (byte_of <$> chars w) l))
          = split l ++ [w]) as Hone.
  { rewrite lex_plain_word by done. unfold wrap. simpl.
    rewrite Hacc, append_nil_l. unfold chars.
    rewrite string_of_list_ascii_of_string.
    destruct w; [done|]. reflexivity. }
  destruct ws as [|w' ws'].
  { unfold Join. simpl. by rewrite ReadRunes_ascii. }
  change (Join (w :: w' :: ws') " ") with (w +:+ (" " +:+ Join (w' :: ws') " ")).
  rewrite ReadRunes_ascii_app by done.
  rewrite (ReadRunes_ascii_app " ") by (by repeat constructor).
  rewrite !fold_left_app. simpl fold_left at 2.
  rewrite lex_plain_word by done. rewrite Hstate.
  change (byte_of " ") with 32.
  match goal with
  | |- context [lex_rune ?l0 32] =>
    change (lex_rune l0 32) with (wrap l0); set (l1 := wrap l0)
  end.
  rewrite IH.
  - subst l1. unfold wrap at 1. simpl.
    rewrite Hacc, append_nil_l. unfold chars.
    rewrite string_of_list_ascii_of_string.
    destruct w; [done|]. simpl. by rewrite <- app_assoc.
  - done.
  - done.
Qed.

(** X2: a command line made of plain words separated by single spaces
    is split into exactly those words. *)
Theorem tokenize_plain_words words :
  Forall plain_word words → tokenize (Join words " ") = words.
Proof.
  intros Hwords. unfold tokenize, lex_run.
  change (lex_rune lex_init 0) with lex_init.
  by rewrite lex_words.
Qed.

Lemma tokenize_plain_words_witness :
  tokenize "viirs_detect -o /output/d20130101.h5"
  = ["viirs_detect"; "-o"; "/output/d20130101.h5"].
Proof.
  apply (tokenize_plain_words ["viirs_detect"; "-o"; "/output/d20130101.h5"]).
  repeat constructor; try discriminate; vm_compute; reflexivity.
Defined.

(** X3: a backslash outside quotes escapes the whole rest of the command
    line, not only the next character: the word before it and all the
    text after it, white space and quotes included, make one token. *)
Theorem tokenize_backslash_escapes_rest w rest :
  Forall (λ c, plain_byte c = true) (chars w) →
  Forall (λ c, ascii_byte c = true ∧ byte_of c ≠ 0) (chars rest) →
  w +:+ rest ≠ "" →
  tokenize (w +:+ ("\" +:+ rest)) = [w +:+ rest].
Proof.
  intros Hw Hrest Hne. unfold tokenize, lex_run.
  change (lex_rune lex_init 0) with lex_init.
  rewrite ReadRunes_ascii_app
    by (eapply Forall_impl; [exact Hw|]; apply plain_byte_ascii).
  rewrite (ReadRunes_ascii_app "\") by (by repeat constructor).
  rewrite ReadRunes_ascii
    by (eapply Forall_impl; [exact Hrest|]; intros c Hc; apply Hc).
  rewrite !fold_left_app. rewrite (lex_plain_word (chars w)) by done.
  simpl fold_left at 2.
  change (lex_rune _ (byte_of "\"))
    with {| state := ESCAPED; acc := "" +:+ string_of_list_ascii (chars w);
            split := [] |}.
  rewrite lex_escaped_text by done. unfold wrap. simpl.
  unfold chars. rewrite !string_of_list_ascii_of_string, append_nil_l.
  destruct (w +:+ rest) eqn:Hall; [congruence|]. reflexivity.
Qed.

Lemma tokenize_backslash_escapes_rest_witness :
  tokenize "a\ b 'c' d" = ["a b 'c' d"].
Proof.
  apply (tokenize_backslash_escapes_rest "a" " b 'c' d").
  - repeat constructor.
  - repeat constructor; discriminate.
  - discriminate.
Defined.

Lemma ReadRunes_skipped_byte c s :
  skipped_byte c = true →
  ∃ r, (r = 0 ∨ r = RuneError) ∧ ReadRunes (String c s) = r :: ReadRunes s.
Proof.
  unfold skipped_byte, in_range. intros Hc. pose proof (byte_of_bounds c).
  unfold ReadRunes. cbn [bytes_of ReadRunes_from].
  destruct (decide (byte_of c = 0)) as [Hz|Hnz].
  { exists 0. split; [by left|]. unfold DecodeRune. rewrite Hz. reflexivity. }
  exists RuneError. split; [by right|].
  unfold DecodeRune, in_range.
  replace (byte_of c <? 128) with false by lia.
  replace ((194 <=? byte_of c) && (byte_of c <=? 223)) with false by lia.
  replace (byte_of c =? 224) with false by lia.
  replace ((225 <=? byte_of c) && (byte_of c <=? 236)) with false by lia.
  replace (byte_of c =? 237) with false by lia.
  replace ((238 <=? byte_of c) && (byte_of c <=? 239)) with false by lia.
  replace (byte_of c =? 240) with false by lia.
  replace ((241 <=? byte_of c) && (byte_of c <=? 243)) with false by lia.
  replace (byte_of c =? 244) with false by lia.
  reflexivity.
Qed.

(** X4: a NUL byte, or a byte that cannot start a UTF-8 sequence,
    standing after ASCII text is dropped: the tokens are those of the
    text without it. *)
Theorem tokenize_drops_skipped_byte s1 c s2 :
  Forall (λ c, ascii_byte c = true) (chars s1) →
  skipped_byte c = true →
  tokenize (s1 +:+ String c s2) = tokenize (s1 +:+ s2).
Proof.
  intros Hs1 Hc. unfold tokenize, lex_run.
  rewrite !ReadRunes_ascii_app by done.
  destruct (ReadRunes_skipped_byte c s2 Hc) as (r & Hr & ->).
  rewrite !fold_left_app.
  assert (∀ l, lex_rune l r = l) as Hskip.
  { intros l. by destruct Hr as [-> | ->]. }
  generalize (fold_left lex_rune (byte_of <$> chars s1) (lex_rune lex_init 0)).
  intros l. cbn [fold_left]. by rewrite Hskip.
Qed.

Lemma tokenize_drops_skipped_byte_witness :
  tokenize ("ls " +:+ String (ascii_of 255) "-l") = ["ls"; "-l"].
Proof.
  rewrite (tokenize_drops_skipped_byte "ls " (ascii_of 255) "-l").
  - vm_compute. reflexivity.
  - repeat constructor.
  - reflexivity.
Defined.

Lemma lex_blanks cs l :
  Forall (λ c, blank_byte c = true) cs →
  state l = DEFAULT → acc l = "" →
  fold_left lex_rune (byte_of <$> cs) l = l.
Proof.
  induction 1 as [|c cs Hc _ IH]; intros Hstate Hacc; [done|].
  simpl. assert (lex_rune l (byte_of c) = l) as ->; [|by apply IH].
  unfold blank_byte in Hc. unfold lex_rune, RuneError.
  replace ((byte_of c =? 65533) || (byte_of c =? 0)) with false by lia.
  rewrite Hstate, Hc. unfold wrap. rewrite Hacc. simpl.
  destruct l. simpl in *. by subst.
Qed.

(** X5: text of white space only (and the empty text) has no tokens. *)
Theorem tokenize_blank text :
  Forall (λ c, blank_byte c = true) (chars text) → tokenize text = [].
Proof.
  intros Hblank. unfold tokenize, lex_run.
  change (lex_rune lex_init 0) with lex_init.
  rewrite ReadRunes_ascii.
  - by rewrite lex_blanks.
  - eapply Forall_impl; [exact Hblank|].
    intros c. unfold blank_byte, ascii_byte. lia.
Qed.

Lemma tokenize_blank_witness :
  tokenize (String " " (String (ascii_of 9) (String (ascii_of 10) " "))) = [].
Proof.
  apply tokenize_blank. repeat constructor.
Defined.

(** ** The pipeline engine, further *)

Section pipeline_further.
Context {RT : GoRuntime}.

Local Abbreviation Value := (Value (@float64 RT)).
Local Abbreviation Ctx := (gmap string Value).

Lemma outcome_eta (o : outcome) : {| spawned := spawned o; ret := ret o |} = o.
Proof. by destruct o. Qed.

(** X6: [Pipeline.Exec] stops at the first step whose [Exec] does not
    return a nil error: its result is the result of the run, the steps
    after it spawn nothing. *)
Theorem exec_steps_stops_at_first_failure
    (pre post : list (@Step RT)) (s : @Step RT) (ctx c1 c2 : Ctx) o1 o2 r1 :
  exec_steps pre ctx = (c1, o1) →
  ret o1 = Return None r1 →
  Step_Exec s c1 = (c2, o2) →
  (∀ res, ret o2 ≠ Return None res) →
  exec_steps (pre ++ s :: post) ctx
  = (c2, {| spawned := spawned o1 ++ spawned o2; ret := ret o2 |}).
Proof.
  revert ctx c1 o1. induction pre as [|s0 pre IH]; intros ctx c1 o1 Hpre Hok Hs Hfail.
  - simpl in Hpre. injection Hpre as <- <-. simpl. rewrite Hs.
    destruct o2 as [sp2 [[e|] res|]]; simpl in *; try done.
    by destruct (Hfail res).
  - simpl in Hpre. simpl.
    destruct (Step_Exec s0 ctx) as [c0 [sp0 [[e|] res|]]] eqn:Hs0.
    + injection Hpre as <- <-. by simpl in Hok.
    + destruct (exec_steps pre c0) as [c' o'] eqn:Hpre'.
      injection Hpre as <- <-. simpl in Hok.
      rewrite (IH c0 c' o' Hpre' Hok Hs Hfail). simpl.
      by rewrite app_assoc.
    + injection Hpre as <- <-. by simpl in Hok.
Qed.

Lemma exec_steps_text (steps : list (@Step RT)) (vars : Ctx) res :
  ret (exec_steps steps vars).2 = Return None res → res = "".
Proof.
  revert vars. induction steps as [|s steps IH]; intros vars; simpl.
  { by intros [= <-]. }
  destruct (Step_Exec s vars) as [c0 [sp0 [[e|] res0|]]]; simpl; try done.
  destruct (exec_steps steps c0) as [c' o'] eqn:Hrest. simpl.
  intros Hret. apply (IH c0). by rewrite Hrest.
Qed.

(** X7: a run of [Pipeline.Exec] that returns a nil error returns the
    empty text: what the commands of the steps printed is not passed
    on. *)
Theorem Pipeline_Exec_success_text (p : @Pipeline RT) (ctx : Ctx) res :
  ret (Pipeline_Exec p ctx).2 = Return None res → res = "".
Proof.
  unfold Pipeline_Exec.
  destruct (Pipeline_EvalVariables p ctx) as [c [vars|e]]; simpl; [|done].
  apply exec_steps_text.
Qed.

Lemma eval_shared_app (pre post : list (@Var RT)) (ctx : Ctx) :
  eval_shared (pre ++ post) ctx
  = match eval_shared pre ctx with
    | (c1, None) => eval_shared post c1
    | (c1, Some e) => (c1, Some e)
    end.
Proof.
  revert ctx. induction pre as [|v pre IH]; intros ctx; simpl; [done|].
  destruct (Var_Eval v ctx); [apply IH|done].
Qed.

Lemma eval_shared_dom (vars : list (@Var RT)) (ctx ctx' : Ctx) err :
  eval_shared vars ctx = (ctx', err) →
  dom ctx ⊆ dom ctx'
  ∧ (err = None → dom ctx' = dom ctx ∪ list_to_set (Var_Name <$> vars)).
Proof.
  revert ctx. induction vars as [|v vars IH]; intros ctx; simpl.
  { intros [= <- <-]. split; [done|]. intros _. set_solver. }
  destruct (Var_Eval v ctx) as [val|e].
  - intros [Hsub Hdom]%IH. rewrite dom_insert in Hsub. split; [set_solver|].
    intros Hnone. rewrite (Hdom Hnone), dom_insert_L. set_solver.
  - intros [= <- <-]. split; [done|]. done.
Qed.

(** X8: when a pipeline variable fails to evaluate,
    [Pipeline.EvalVariables] has already written the variables before
    it into the caller's map, which keeps them; [Pipeline.Exec] returns
    the error and runs no step. *)
Theorem Pipeline_EvalVariables_error_keeps_writes
    (p : @Pipeline RT) (ctx c1 : Ctx) pre u post e :
  Pipeline_Variables p = pre ++ u :: post →
  eval_shared pre ctx = (c1, None) →
  Var_Eval u c1 = Err e →
  Pipeline_EvalVariables p ctx = (c1, Err e)
  ∧ Pipeline_Exec p ctx = (c1, {| spawned := []; ret := Return (Some e) "" |})
  ∧ dom c1 = dom ctx ∪ list_to_set (Var_Name <$> pre).
Proof.
  intros Hp Hpre Hu.
  assert (Pipeline_EvalVariables p ctx = (c1, Err e)) as Heval.
  { unfold Pipeline_EvalVariables. rewrite Hp, eval_shared_app, Hpre.
    simpl. by rewrite Hu. }
  split; [done|]. split.
  - unfold Pipeline_Exec. by rewrite Heval.
  - by apply (eval_shared_dom pre ctx c1 None).
Qed.

(** X9: when the pipeline variables evaluate, the caller's map ends with
    the keys it had and the name of every variable; each variable is
    evaluated on the map as the variables before it left it, so it sees
    their values. *)
Theorem Pipeline_EvalVariables_sees_earlier
    (p : @Pipeline RT) (ctx ctx' : Ctx) pre v post :
  Pipeline_EvalVariables p ctx = (ctx', Ok ctx') →
  Pipeline_Variables p = pre ++ v :: post →
  dom ctx' = dom ctx ∪ list_to_set (Var_Name <$> Pipeline_Variables p)
  ∧ ∃ c1 val,
      eval_shared pre ctx = (c1, None)
      ∧ dom c1 = dom ctx ∪ list_to_set (Var_Name <$> pre)
      ∧ Var_Eval v c1 = Ok val
      ∧ eval_shared post (<[Var_Name v := val]> c1) = (ctx', None).
Proof.
  unfold Pipeline_EvalVariables. intros Heval Hp.
  destruct (eval_shared (Pipeline_Variables p) ctx) as [c [e|]] eqn:Hall; [done|].
  injection Heval as <-. split.
  { by apply (eval_shared_dom _ ctx c None). }
  rewrite Hp, eval_shared_app in Hall.
  destruct (eval_shared pre ctx) as [c1 [e|]] eqn:Hpre; [done|].
  simpl in Hall. destruct (Var_Eval v c1) as [val|e] eqn:Hv; [|done].
  exists c1, val. split; [done|]. split; [|done].
  by apply (eval_shared_dom pre ctx c1 None).
Qed.

Lemma Var_Prepare_keeps (v v' : @Var RT) err :
  Var_Prepare v = (v', err) →
  Var_Name v' = Var_Name v ∧ Var_Value v' = Var_Value v.
Proof.
  unfold Var_Prepare.
  destruct (Var_Value v) as [|b|i|f|raw] eqn:Hvalue.
  5: destruct (Template_Parse (Var_Name v) lDelim rDelim raw).
  all: intros [= <- <-]; simpl; by rewrite ?Hvalue.
Qed.

Lemma Vars_Prepare_keeps (vars vars' : list (@Var RT)) err :
  Vars_Prepare vars = (vars', err) →
  Var_Name <$> vars' = Var_Name <$> vars
  ∧ Var_Value <$> vars' = Var_Value <$> vars.
Proof.
  revert vars' err. induction vars as [|v vars IH]; intros vars' err; simpl.
  { by intros [= <- <-]. }
  destruct (Var_Prepare v) as [v' [e|]] eqn:Hv;
    apply Var_Prepare_keeps in Hv as [Hname Hvalue].
  - intros [= <- <-]. rewrite !fmap_cons. by rewrite Hname, Hvalue.
  - destruct (Vars_Prepare vars) as [r' e'] eqn:Hr. intros [= <- <-].
    destruct (IH r' e' eq_refl) as [Hn Hv]. rewrite !fmap_cons.
    by rewrite Hname, Hvalue, Hn, Hv.
Qed.

Lemma Step_Prepare_keeps (s s' : @Step RT) err :
  Step_Prepare s = (s', err) →
  Step_Name s' = Step_Name s
  ∧ Step_Command s' = Step_Command s
  ∧ Var_Name <$> Step_Variables s' = Var_Name <$> Step_Variables s
  ∧ Var_Value <$> Step_Variables s' = Var_Value <$> Step_Variables s
  ∧ (err = None → is_Some (Step_command s')).
Proof.
  unfold Step_Prepare.
  destruct (Vars_Prepare (Step_Variables s)) as [vars e] eqn:Hvars.
  apply Vars_Prepare_keeps in Hvars as [Hn Hv].
  destruct e as [e|].
  - by intros [= <- <-].
  - destruct (Template_Parse _ _ _ _) as [c|e]; intros [= <- <-]; simpl;
      repeat split; try done; try by eexists.
Qed.

Lemma Steps_Prepare_keeps (steps steps' : list (@Step RT)) err :
  Steps_Prepare steps = (steps', err) →
  Step_Command <$> steps' = Step_Command <$> steps
  ∧ (err = None → Forall (λ s, is_Some (Step_command s)) steps').
Proof.
  revert steps' err. induction steps as [|s steps IH]; intros steps' err; simpl.
  { by intros [= <- <-]. }
  destruct (Step_Prepare s) as [s' [e|]] eqn:Hs;
    apply Step_Prepare_keeps in Hs as (_ & Hcommand & _ & _ & Hcompiled).
  - intros [= <- <-]. rewrite !fmap_cons. by rewrite Hcommand.
  - destruct (Steps_Prepare steps) as [r' e'] eqn:Hr. intros [= <- <-].
    destruct (IH r' e' eq_refl) as [Hc Hall]. rewrite !fmap_cons.
    rewrite Hcommand, Hc. split; [done|].
    intros He. constructor; [by apply Hcompiled|by apply Hall].
Qed.

Lemma exec_steps_compiled (steps : list (@Step RT)) (vars : Ctx) :
  Forall (λ s, is_Some (Step_command s)) steps →
  ret (exec_steps steps vars).2 ≠ Panic.
Proof.
  intros Hsteps. revert vars.
  induction Hsteps as [|s steps [c Hc] _ IH]; intros vars; simpl; [done|].
  destruct (Step_Exec s vars) as [c0 [sp0 r0]] eqn:Hs.
  assert (r0 ≠ Panic) as Hr0.
  { unfold Step_Exec in Hs. rewrite Hc in Hs.
    destruct (Step_EvalVariables s vars) as [c' [nctx|e]].
    - destruct (Template_Execute c nctx) as [buf|e].
      + destruct (Command_Output _ _) as [out [[e stderr|e]|]];
          by injection Hs as <- <- <-.
      + by injection Hs as <- <- <-.
    - by injection Hs as <- <- <-. }
  destruct r0 as [[e|] res|]; simpl; try done.
  specialize (IH c0). by destruct (exec_steps steps c0).
Qed.

(** X10: [Pipeline.Prepare] changes no name, raw value or command text,
    and when it returns no error every step has its compiled command:
    [Pipeline.Exec] on the prepared pipeline does not end in a nil
    pointer dereference, whatever the context. *)
Theorem Pipeline_Prepare_sound (p p' : @Pipeline RT) err :
  Pipeline_Prepare p = (p', err) →
  Var_Name <$> Pipeline_Variables p' = Var_Name <$> Pipeline_Variables p
  ∧ Var_Value <$> Pipeline_Variables p' = Var_Value <$> Pipeline_Variables p
  ∧ Step_Command <$> Pipeline_Steps p' = Step_Command <$> Pipeline_Steps p
  ∧ (err = None → ∀ ctx : Ctx, ret (Pipeline_Exec p' ctx).2 ≠ Panic).
Proof.
  unfold Pipeline_Prepare.
  destruct (Vars_Prepare (Pipeline_Variables p)) as [vars [e|]] eqn:Hvars;
    apply Vars_Prepare_keeps in Hvars as [Hn Hv].
  - by intros [= <- <-].
  - destruct (Steps_Prepare (Pipeline_Steps p)) as [steps e] eqn:Hsteps.
    apply Steps_Prepare_keeps in Hsteps as [Hc Hcompiled].
    intros [= <- <-]. simpl. repeat split; try done.
    intros He ctx. unfold Pipeline_Exec. simpl.
    destruct (Pipeline_EvalVariables _ ctx) as [c [vars'|e']]; simpl; [|done].
    by apply exec_steps_compiled, Hcompiled.
Qed.

(** X11: [Variables.UnmarshalYAML] keeps the entries of the mapping in
    their order, the key as the name and the value as the raw value,
    with no compiled expression; it fails, with [NotAString], exactly
    when some key is not a string. *)
Theorem Vars_UnmarshalYAML_spec (s : list (Value * Value)) :
  match Vars_UnmarshalYAML s with
  | Ok vars =>
    (λ v, (VString (Var_Name v), Var_Value v)) <$> vars = s
    ∧ Forall (λ v : @Var RT, Var_expression v = None) vars
  | Err e =>
    e = NotAString ∧ ∃ k v, (k, v) ∈ s ∧ ∀ name, k ≠ VString name
  end.
Proof.
  induction s as [|[k v] s IH]; simpl; [done|].
  destruct k as [|b|i|f|name];
    try (split; [done|]; eexists _, v; split; [by left|done]).
  destruct (Vars_UnmarshalYAML s) as [vars|e].
  - destruct IH as [Hs Hnil]. split; [by rewrite fmap_cons, Hs|].
    by constructor.
  - destruct IH as (-> & k' & v' & Hin & Hk). split; [done|].
    exists k', v'. split; [by right|done].
Qed.

(** X12: a step whose local variables all have names that are not keys
    of the shared context (a step without local variables among them)
    leaves the shared context exactly as it was. *)
Theorem Step_new_keys_isolated (s : @Step RT) (ctx ctx' nctx : Ctx) :
  Step_EvalVariables s ctx = (ctx', Ok nctx) →
  (∀ v, v ∈ Step_Variables s → ctx !! Var_Name v = None) →
  ctx' = ctx ∧ (Step_Exec s ctx).1 = ctx.
Proof.
  intros Heval Hnew.
  assert (ctx' = ctx) as ->.
  { unfold Step_EvalVariables in Heval.
    destruct (eval_local (Step_Variables s) ctx (copy_context ctx))
      as [n|] eqn:Hlocal; [|done].
    injection Heval as <- <-. rewrite copy_context_eq in Hlocal.
    apply eval_local_lookup in Hlocal as (_ & _ & Hother).
    apply map_eq. intros k. rewrite lookup_write_back.
    destruct (ctx !! k) as [val|] eqn:Hk; [|done]. simpl.
    rewrite Hother, Hk; [done|].
    intros v Hv Heq. specialize (Hnew v Hv). rewrite Heq in Hnew. congruence. }
  split; [done|]. unfold Step_Exec. rewrite Heval.
  destruct (Step_command s) as [c|]; [|done].
  destruct (Template_Execute c nctx); [|done].
  by destruct (Command_Output _ _).
Qed.

(** X13: [Step.Exec] does not check that the rendered command has a
    word in it.  When the command renders to white space only (or to
    nothing), the one call it makes is [exec.Command] with the empty
    name and no arguments, and it returns what that call gives: where
    the call fails before a process is started, as it does in Go with
    [exec: no command], the step fails with that error and the output
    of the call as its text, and no process has run. *)
Theorem Step_Exec_blank_command (s : @Step RT) (ctx ctx' nctx : Ctx) command buf
    out e :
  Step_EvalVariables s ctx = (ctx', Ok nctx) →
  Step_command s = Some command →
  Template_Execute command nctx = Ok buf →
  Forall (λ c, blank_byte c = true) (chars buf) →
  Command_Output "" [] = (out, Some (SpawnError e)) →
  Step_Exec s ctx
  = (ctx', {| spawned := [("", [])]; ret := Return (Some e) out |}).
Proof.
  intros Heval Hcommand Hbuf Hblank Hcall. unfold Step_Exec.
  rewrite Heval, Hcommand, Hbuf, (tokenize_blank buf Hblank). simpl.
  by rewrite Hcall.
Qed.

End pipeline_further.

(** ** The watcher, further *)

Lemma AnyChanged_range_false stat files :
  AnyChanged_range stat files = Ok false
  ↔ Forall (λ f, ∃ inf, stat (File_Fullpath f) = Ok inf ∧ grew stat f = false) files.
Proof.
  induction files as [|f files IH]; simpl.
  { split; [by constructor|done]. }
  unfold grew at 1.
  destruct (stat (File_Fullpath f)) as [inf|e] eqn:Hinf.
  - destruct (After _ _ || _) eqn:Hgrew.
    + split; [done|]. intros [(inf' & _ & Hfalse) _]%Forall_cons.
      unfold grew in Hfalse. rewrite Hinf in Hfalse. congruence.
    + rewrite IH. split.
      * intros Hall. constructor; [|done].
        exists inf. split; [done|]. unfold grew. by rewrite Hinf.
      * by intros [_ ?]%Forall_cons.
  - split; [done|]. intros [(inf' & ? & _) _]%Forall_cons. congruence.
Qed.

(** X14: in whatever order the files are visited, [AnyChanged] answers
    "no change" exactly when every tracked file stats successfully and
    none has a later modification time or a larger size than recorded;
    a single failing stat makes the answer an error or "changed". *)
Theorem AnyChanged_false_iff (fs : FS) (fg : FileGroup) :
  (∀ files, range_order fs files ≡ₚ files) →
  AnyChanged fs fg = Ok false
  ↔ ∀ name f, Files fg !! name = Some f →
      ∃ inf, Stat fs (File_Fullpath f) = Ok inf
             ∧ FileInfo_ModTime inf ≤ File_LastModified f
             ∧ FileInfo_Size inf ≤ File_Size f.
Proof.
  intros Hperm. unfold AnyChanged. rewrite AnyChanged_range_false.
  rewrite Forall_forall. split.
  - intros Hall name f Hf.
    destruct (Hall f) as (inf & Hinf & Hgrew).
    { rewrite Hperm. apply elem_of_Files_range. by exists name. }
    exists inf. split; [done|]. unfold grew, After in Hgrew.
    rewrite Hinf in Hgrew. apply orb_false_iff in Hgrew. lia.
  - intros Hall f Hf. rewrite Hperm in Hf.
    apply elem_of_Files_range in Hf as [name Hname].
    destruct (Hall name f Hname) as (inf & Hinf & Hmod & Hsize).
    exists inf. split; [done|]. unfold grew, After. rewrite Hinf.
    apply orb_false_iff. lia.
Qed.

Lemma AnyChanged_false_iff_witness :
  AnyChanged (visit_fs first_file) tracked_group = Ok false.
Proof.
  apply (AnyChanged_false_iff (visit_fs first_file) tracked_group).
  - intros files. reflexivity.
  - intros name f Hf. eexists. split; [reflexivity|].
    unfold tracked_group in Hf. simpl in Hf.
    apply lookup_singleton_Some in Hf as [_ <-]. simpl. lia.
Defined.

(** X15: [isRequired] answers with the first configured prefix, in
    configuration order, that the name starts with, and with
    [(false, "")] exactly when the name starts with none. *)
Theorem isRequired_first_match (required : list string) (s : string) :
  match isRequired_in required s with
  | (true, r) =>
    ∃ pre post, required = pre ++ r :: post
                ∧ HasPrefix s r = true
                ∧ Forall (λ q, HasPrefix s q = false) pre
  | (false, r) => r = "" ∧ Forall (λ q, HasPrefix s q = false) required
  end.
Proof.
  induction required as [|q required IH]; simpl; [done|].
  destruct (HasPrefix s q) eqn:Hq.
  - exists [], required. by repeat split.
  - destruct (isRequired_in required s) as [[|] r].
    + destruct IH as (pre & post & -> & Hr & Hpre).
      exists (q :: pre), post. repeat split; [done|]. by constructor.
    + destruct IH as [-> Hall]. split; [done|]. by constructor.
Qed.

(** *** [getId] *)

Lemma Split_no_sep f sep :
  Forall (λ c, c ≠ sep) (chars f) → Split f sep = [f].
Proof.
  induction f as [|c f IH]; simpl; [done|].
  intros [Hc Hf]%Forall_cons.
  apply Ascii.eqb_neq in Hc as ->. by rewrite IH.
Qed.

Lemma Split_app_sep f sep rest :
  Forall (λ c, c ≠ sep) (chars f) →
  Split (f +:+ String sep rest) sep = f :: Split rest sep.
Proof.
  induction f as [|c f IH].
  { intros _. rewrite append_nil_l. simpl. by rewrite Ascii.eqb_refl. }
  intros [Hc Hf]%Forall_cons. rewrite append_cons. simpl.
  apply Ascii.eqb_neq in Hc as ->. by rewrite IH.
Qed.

Lemma Join_cons f g fs sep :
  Join (f :: g :: fs) sep = f +:+ (sep +:+ Join (g :: fs) sep).
Proof. reflexivity. Qed.

(** Splitting at the separator undoes joining with it. *)
Lemma Split_Join fields :
  Forall name_field fields → fields ≠ [] →
  Split (Join fields "_") "_" = fields.
Proof.
  induction 1 as [|f fields Hf Hfields IH]; [done|]. intros _.
  assert (Forall (λ c, c ≠ "_"%char) (chars f)) as Hf'.
  { eapply Forall_impl; [exact Hf|]. by intros c [? _]. }
  destruct fields as [|g fs].
  { unfold Join. simpl. by apply Split_no_sep. }
  rewrite Join_cons. change ("_" +:+ ?x) with (String "_" x).
  rewrite Split_app_sep by done. by rewrite IH.
Qed.

Lemma chars_Join fields :
  Forall name_field fields →
  Forall (λ c, c ≠ "/"%char) (chars (Join fields "_")).
Proof.
  induction 1 as [|f fields Hf Hfields IH]; [by constructor|].
  assert (Forall (λ c, c ≠ "/"%char) (chars f)) as Hf'.
  { eapply Forall_impl; [exact Hf|]. by intros c [_ ?]. }
  destruct fields as [|g fs]; [done|].
  rewrite Join_cons, !chars_app. apply Forall_app. split; [done|].
  apply Forall_app. split; [|done]. by repeat constructor.
Qed.

Lemma Base_name name :
  name ≠ "" → Forall (λ c, c ≠ "/"%char) (chars name) → Base name = name.
Proof.
  intros Hne Hname. unfold Base.
  destruct (String.eqb name "") eqn:Hempty.
  { by apply String.eqb_eq in Hempty. }
  rewrite Split_no_sep by done.
  rewrite filter_cons_True by done. by rewrite filter_nil.
Qed.

(** X16: for a file name made of fields joined by underscores, [getId]
    fails when there are fewer than six fields and otherwise returns
    the second to fifth field joined by underscores: the prefix and
    everything from the sixth field on do not enter the id. *)
Theorem getId_fields fields :
  Forall name_field fields → fields ≠ [] →
  getId (Join fields "_")
  = if (length fields <? 6)%nat then Err UnexpectedName
    else Ok (Join (take 4 (drop 1 fields)) "_").
Proof.
  intros Hfields Hne.
  destruct (decide (Join fields "_" = "")) as [Hempty|Hname].
  - rewrite Hempty.
    destruct fields as [|f [|g fs]]; [done|done|].
    rewrite Join_cons in Hempty. by destruct f.
  - unfold getId. rewrite Base_name by (done || by apply chars_Join).
    by rewrite Split_Join.
Qed.

Lemma getId_fields_witness :
  getId "SVM10_npp_d20130101_t0000000_e0001000_b00001_c20130101000000_noaa_ops.h5"
  = Ok "npp_d20130101_t0000000_e0001000".
Proof.
  apply (getId_fields ["SVM10"; "npp"; "d20130101"; "t0000000"; "e0001000";
                       "b00001"; "c20130101000000"; "noaa"; "ops.h5"]).
  - repeat constructor; discriminate.
  - discriminate.
Defined.

(** *** The callback and its runs *)

(** The callback, case by case: it leaves the watcher alone, or it has
    passed every test and updates the group of the file's id. *)
Lemma walkFn_accepts launchTime w v :
  (watcher (walkFn launchTime w v) = w ∧ processed (walkFn launchTime w v) = None)
  ∨ ∃ id grp,
      visit_err v = None
      ∧ Ext (visit_path v) = ".h5"
      ∧ (isRequired w (FileInfo_Name (visit_info v))).1 = true
      ∧ getId (FileInfo_Name (visit_info v)) = Ok id
      ∧ (id ∉ ready w)
      ∧ (found w !! id = Some grp
         ∨ found w !! id = None
           ∧ Before (FileInfo_ModTime (visit_info v)) launchTime = false
           ∧ grp = new_group id (visit_path v))
      ∧ walkFn launchTime w v
        = {| watcher :=
               {| root := root w; delay := delay w; required := required w;
                  found := <[id := record_file grp (visit_path v) (visit_info v)]>
                             (found w);
                  ready := if stable_now w v grp then {[Id grp]} ∪ ready w
                           else ready w |};
             processed := if stable_now w v grp && After (LastModified grp) launchTime
                          then Some grp else None;
             walk_err := None |}.
Proof.
  unfold walkFn.
  destruct (visit_err v) eqn:Herr; [left; done|].
  destruct (String.eqb ".h5" (Ext (visit_path v))) eqn:Hext; [|left; done].
  apply String.eqb_eq in Hext. simpl.
  destruct (isRequired w (FileInfo_Name (visit_info v))).1 eqn:Hreq; [|left; done].
  simpl.
  destruct (getId (FileInfo_Name (visit_info v))) as [id|] eqn:Hid; [|left; done].
  case_bool_decide as Hready; [left; done|].
  destruct (found w !! id) as [grp|] eqn:Hfound.
  - right. exists id, grp. repeat split; eauto.
  - destruct (Before _ _) eqn:Hold; [left; done|].
    right. exists id, (new_group id (visit_path v)). repeat split; eauto.
Qed.

Lemma record_file_lookup grp p inf :
  ∃ f, Files (record_file grp p inf) !! FileInfo_Name inf = Some f
       ∧ File_Size f = FileInfo_Size inf
       ∧ File_LastModified f = FileInfo_ModTime inf
       ∧ match Files grp !! FileInfo_Name inf with
         | Some f0 =>
           File_Name f = File_Name f0 ∧ File_Prefix f = File_Prefix f0
           ∧ File_Fullpath f = File_Fullpath f0
         | None =>
           File_Name f = FileInfo_Name inf
           ∧ File_Prefix f = hd "" (Split (FileInfo_Name inf) "_")
           ∧ File_Fullpath f = p
         end.
Proof.
  unfold record_file. destruct (Files grp !! FileInfo_Name inf) as [f0|]; simpl;
    eexists; (split; [apply lookup_insert_eq|]); done.
Qed.

Lemma record_file_other grp p inf name :
  name ≠ FileInfo_Name inf →
  Files (record_file grp p inf) !! name = Files grp !! name.
Proof.
  intros Hne. unfold record_file.
  destruct (Files grp !! FileInfo_Name inf); simpl; by rewrite lookup_insert_ne.
Qed.

Lemma record_file_LastModified grp p inf :
  LastModified (record_file grp p inf)
  = Z.max (LastModified grp) (FileInfo_ModTime inf).
Proof.
  unfold record_file, After.
  destruct (Files grp !! FileInfo_Name inf); simpl;
    destruct (LastModified grp <? FileInfo_ModTime inf) eqn:Hlt; lia.
Qed.

(** X17: a visit that passes the tests of the callback (no walk error,
    extension [.h5], a required prefix, a name with an id, the id not
    claimed, and either a known group or a file not older than the
    launch) leaves the file registered under its name in the group of
    its id, with the size and modification time of this visit; the
    group's modification time is at least the file's, and no other
    group is touched. *)
Theorem walkFn_records_visit launchTime w v id :
  visit_err v = None →
  Ext (visit_path v) = ".h5" →
  (isRequired w (FileInfo_Name (visit_info v))).1 = true →
  getId (FileInfo_Name (visit_info v)) = Ok id →
  (id ∉ ready w) →
  is_Some (found w !! id)
  ∨ Before (FileInfo_ModTime (visit_info v)) launchTime = false →
  ∃ g f,
    found (watcher (walkFn launchTime w v)) !! id = Some g
    ∧ Files g !! FileInfo_Name (visit_info v) = Some f
    ∧ File_Size f = FileInfo_Size (visit_info v)
    ∧ File_LastModified f = FileInfo_ModTime (visit_info v)
    ∧ FileInfo_ModTime (visit_info v) ≤ LastModified g
    ∧ ∀ id', id' ≠ id →
        found (watcher (walkFn launchTime w v)) !! id' = found w !! id'.
Proof.
  intros Herr Hext Hreq Hid Hready Hopen.
  assert (∃ grp, walkFn launchTime w v
            = {| watcher :=
                   {| root := root w; delay := delay w; required := required w;
                      found := <[id := record_file grp (visit_path v) (visit_info v)]>
                                 (found w);
                      ready := if stable_now w v grp then {[Id grp]} ∪ ready w
                               else ready w |};
                 processed := if stable_now w v grp
                                 && After (LastModified grp) launchTime
                              then Some grp else None;
                 walk_err := None |}) as [grp ->].
  { unfold walkFn. rewrite Herr, Hext. simpl. rewrite Hreq. simpl. rewrite Hid.
    rewrite bool_decide_eq_false_2 by done.
    destruct (found w !! id) as [grp|] eqn:Hfound; [by exists grp|].
    destruct Hopen as [[? ?]| ->]; [done|]. by eexists. }
  simpl.
  destruct (record_file_lookup grp (visit_path v) (visit_info v))
    as (f & Hf & Hsize & Hmod & _).
  exists (record_file grp (visit_path v) (visit_info v)), f.
  rewrite lookup_insert_eq. repeat split; try done.
  - rewrite record_file_LastModified. lia.
  - intros id' Hne. by rewrite lookup_insert_ne.
Qed.

Lemma walkFn_records_visit_witness :
  ∃ g f,
    found (watcher (walkFn 100 (NewWatcher "/data" ["A"] 0) first_file))
      !! "1_2_3_4" = Some g
    ∧ Files g !! "A_1_2_3_4_x.h5" = Some f
    ∧ File_Size f = 10
    ∧ File_LastModified f = 200.
Proof.
  destruct (walkFn_records_visit 100 (NewWatcher "/data" ["A"] 0) first_file
              "1_2_3_4") as (g & f & Hg & Hf & Hsize & Hmod & _).
  - reflexivity.
  - reflexivity.
  - reflexivity.
  - reflexivity.
  - apply not_elem_of_empty.
  - right. reflexivity.
  - by exists g, f.
Defined.

(** X18: files whose modification time is before the launch time never
    open a group: if every visit is of such a file, the watcher stays
    as [NewWatcher] built it and [Process] is not called. *)
Theorem Watch_ignores_old_files launchTime root req delay visits :
  Forall (λ v, Before (FileInfo_ModTime (visit_info v)) launchTime = true) visits →
  Watch launchTime (NewWatcher root req delay) visits
  = (NewWatcher root req delay, []).
Proof.
  induction 1 as [|v visits Hold _ IH]; [done|].
  rewrite Watch_cons.
  assert (walkFn launchTime (NewWatcher root req delay) v
          = skip (NewWatcher root req delay)
          ∨ ∃ e, walkFn launchTime (NewWatcher root req delay) v
                 = {| watcher := NewWatcher root req delay; processed := None;
                      walk_err := Some e |}) as Hskip.
  { unfold walkFn.
    destruct (visit_err v); [right; by eexists|]. left.
    destruct (negb _); [done|]. destruct (negb _); [done|].
    destruct (getId _) as [id|]; [|done].
    case_bool_decide; [done|].
    cbn [found NewWatcher]. by rewrite lookup_empty, Hold. }
  destruct Hskip as [-> | [e ->]]; simpl; by rewrite IH.
Qed.

Lemma Watch_ignores_old_files_witness :
  Watch 1000 (NewWatcher "/data" ["A"] 0) [first_file; second_file]
  = (NewWatcher "/data" ["A"] 0, []).
Proof.
  apply Watch_ignores_old_files. repeat constructor.
Defined.

(** X19: once an id is in the ready set, no later visit changes the
    group filed under it: a claimed group is frozen. *)
Theorem Watch_claimed_group_frozen launchTime visits w id :
  id ∈ ready w →
  found (Watch launchTime w visits).1 !! id = found w !! id.
Proof.
  revert w. induction visits as [|v visits IH]; intros w Hid; [done|].
  rewrite Watch_cons. simpl.
  rewrite IH by (by apply (walkFn_ready_mono launchTime w v)).
  destruct (walkFn_cases launchTime w v)
    as [[-> _]|(id0 & grp & stable & Hnot & _ & -> & _)]; [done|].
  apply lookup_insert_ne. by intros ->.
Qed.

Lemma Watch_claimed_group_frozen_witness :
  found (Watch 100 (Watch 100 (NewWatcher "/data" ["A"] 0)
                      [first_file; first_file]).1 [second_file]).1 !! "1_2_3_4"
  = found (Watch 100 (NewWatcher "/data" ["A"] 0) [first_file; first_file]).1
      !! "1_2_3_4".
Proof.
  apply Watch_claimed_group_frozen.
  apply (bool_decide_unpack _). vm_compute. exact I.
Defined.

Lemma record_file_keeps grp p inf :
  Id (record_file grp p inf) = Id grp
  ∧ Path (record_file grp p inf) = Path grp
  ∧ LastModified grp ≤ LastModified (record_file grp p inf)
  ∧ ∀ name f, Files grp !! name = Some f →
      ∃ f', Files (record_file grp p inf) !! name = Some f'
            ∧ File_Name f' = File_Name f
            ∧ File_Prefix f' = File_Prefix f
            ∧ File_Fullpath f' = File_Fullpath f.
Proof.
  split; [apply record_file_Id|]. split.
  { unfold record_file. by destruct (Files grp !! _). }
  split; [rewrite record_file_LastModified; lia|].
  intros name f Hf.
  destruct (decide (name = FileInfo_Name inf)) as [->|Hne].
  - destruct (record_file_lookup grp p inf) as (f' & Hf' & _ & _ & Hsame).
    rewrite Hf in Hsame. by exists f'.
  - exists f. by rewrite record_file_other.
Qed.

(** X20: groups and files are never removed, and what identifies them
    never changes: over any further visits a group stays filed under
    its id with the same [Id] and [Path] and a modification time that
    does not go back, and each of its files stays under its name with
    the same name, prefix and full path (the path of its first
    discovery). *)
Theorem Watch_keeps_groups_and_files launchTime visits w id g :
  found w !! id = Some g →
  ∃ g', found (Watch launchTime w visits).1 !! id = Some g'
        ∧ Id g' = Id g
        ∧ Path g' = Path g
        ∧ LastModified g ≤ LastModified g'
        ∧ ∀ name f, Files g !! name = Some f →
            ∃ f', Files g' !! name = Some f'
                  ∧ File_Name f' = File_Name f
                  ∧ File_Prefix f' = File_Prefix f
                  ∧ File_Fullpath f' = File_Fullpath f.
Proof.
  revert w g. induction visits as [|v visits IH]; intros w g Hg.
  { exists g. repeat split; try done. intros name f Hf. by exists f. }
  rewrite Watch_cons. simpl.
  assert (∃ g1, found (watcher (walkFn launchTime w v)) !! id = Some g1
                ∧ Id g1 = Id g ∧ Path g1 = Path g
                ∧ LastModified g ≤ LastModified g1
                ∧ ∀ name f, Files g !! name = Some f →
                    ∃ f', Files g1 !! name = Some f'
                          ∧ File_Name f' = File_Name f
                          ∧ File_Prefix f' = File_Prefix f
                          ∧ File_Fullpath f' = File_Fullpath f)
    as (g1 & Hg1 & Hid1 & Hpath1 & Hmod1 & Hfiles1).
  { destruct (walkFn_cases launchTime w v)
      as [[-> _]|(id0 & grp & stable & _ & Hgrp & -> & _)].
    { exists g. repeat split; try done. intros name f Hf. by exists f. }
    destruct (decide (id0 = id)) as [->|Hne].
    - destruct Hgrp as [Hgrp|[Hnone _]]; [|congruence].
      assert (grp = g) as -> by congruence.
      exists (record_file g (visit_path v) (visit_info v)).
      split; [apply lookup_insert_eq|]. apply record_file_keeps.
    - exists g. rewrite lookup_insert_ne by done.
      repeat split; try done. intros name f Hf. by exists f. }
  destruct (IH _ _ Hg1) as (g' & Hg' & Hid' & Hpath' & Hmod' & Hfiles').
  exists g'. split; [done|]. split; [congruence|]. split; [congruence|].
  split; [lia|]. intros name f Hf.
  destruct (Hfiles1 name f Hf) as (f1 & Hf1 & Hn1 & Hp1 & Hfp1).
  destruct (Hfiles' name f1 Hf1) as (f' & Hf' & Hn' & Hp' & Hfp').
  exists f'. split; [done|]. split; [congruence|]. split; congruence.
Qed.

Lemma Watch_keeps_groups_and_files_witness :
  ∃ g', found (Watch 100 (Watch 100 (NewWatcher "/data" ["A"] 0) [first_file]).1
                 [second_file]).1 !! "1_2_3_4" = Some g'
        ∧ ∃ f', Files g' !! "A_1_2_3_4_x.h5" = Some f'
                ∧ File_Fullpath f' = "/data/A_1_2_3_4_x.h5".
Proof.
  destruct (Watch_keeps_groups_and_files 100 [second_file]
              (Watch 100 (NewWatcher "/data" ["A"] 0) [first_file]).1 "1_2_3_4"
              (record_file (new_group "1_2_3_4" "/data/A_1_2_3_4_x.h5")
                 "/data/A_1_2_3_4_x.h5" (visit_info first_file)))
    as (g' & Hg' & _ & _ & _ & Hfiles).
  { vm_compute. reflexivity. }
  exists g'. split; [done|].
  destruct (Hfiles "A_1_2_3_4_x.h5"
              {| File_Prefix := "A"; File_Name := "A_1_2_3_4_x.h5";
                 File_Fullpath := "/data/A_1_2_3_4_x.h5"; File_Size := 10;
                 File_LastModified := 200 |})
    as (f' & Hf' & _ & _ & Hpath).
  { vm_compute. reflexivity. }
  by exists f'.
Defined.

Lemma new_group_not_stable (w : Watcher) v id p name :
  (isRequired w name).1 = true → stable_now w v (new_group id p) = false.
Proof.
  unfold isRequired, stable_now. cbn [RequiredFound new_group].
  destruct (required w) as [|q req]; [done|]. intros _.
  destruct (Z.eqb_spec (Z.of_nat (length (q :: req))) 0) as [Hz|_]; [|done].
  simpl length in Hz. lia.
Qed.

Lemma walkFn_well_tracked launchTime req w v :
  well_tracked launchTime req w →
  well_tracked launchTime req (watcher (walkFn launchTime w v)).
Proof.
  intros (Hreq & Hready & Hgroups).
  destruct (walkFn_accepts launchTime w v)
    as [[-> _]|(id & grp & _ & Hext & Hrequired & Hid & _ & Hgrp & ->)];
    [done|].
  assert (Id grp = id ∧ launchTime ≤ Z.max (LastModified grp)
                                       (FileInfo_ModTime (visit_info v))
          ∧ ∀ name f, Files grp !! name = Some f → registered req id name f)
    as (Hgid & Hmod & Hfiles).
  { destruct Hgrp as [Hgrp|(_ & Hold & ->)].
    - destruct (Hgroups id grp Hgrp) as (? & ? & ?). split; [done|].
      split; [lia|done].
    - unfold Before in Hold. simpl. split; [done|]. split; [lia|].
      intros name f Hf. by rewrite lookup_empty in Hf. }
  split; [done|]. split.
  - simpl. rewrite dom_insert_L, Hgid.
    destruct (stable_now w v grp); set_solver.
  - simpl. intros id' g. rewrite lookup_insert. case_decide as Hcase.
    + subst id'. intros [= <-]. split; [by rewrite record_file_Id|].
      split; [by rewrite record_file_LastModified|].
      intros name f Hf.
      destruct (decide (name = FileInfo_Name (visit_info v))) as [->|Hne].
      * destruct (record_file_lookup grp (visit_path v) (visit_info v))
          as (f' & Hf' & _ & _ & Hsame).
        assert (f' = f) as -> by congruence.
        destruct (Files grp !! FileInfo_Name (visit_info v)) as [f0|] eqn:Hf0.
        -- destruct (Hfiles _ _ Hf0) as (Hn & Hp & Hi & Hr & He).
           destruct Hsame as (Hn' & Hp' & Hfp').
           unfold registered. rewrite Hn', Hp', Hfp'. done.
        -- destruct Hsame as (Hn' & Hp' & Hfp').
           unfold registered. rewrite Hn', Hp', Hfp'.
           repeat split; try done. unfold isRequired in Hrequired.
           by rewrite <- Hreq.
      * rewrite record_file_other in Hf by done. by apply Hfiles.
    + apply Hgroups.
Qed.

Lemma Watch_well_tracked launchTime req visits w :
  well_tracked launchTime req w →
  well_tracked launchTime req (Watch launchTime w visits).1.
Proof.
  revert w. induction visits as [|v visits IH]; intros w Hw; [done|].
  rewrite Watch_cons. simpl. by apply IH, walkFn_well_tracked.
Qed.

(** X21: in every state the watcher reaches, the claimed ids have a
    group, every group is filed under its own id and was modified no
    earlier than the launch, and every file of a group is kept under
    its own name, has the first field of that name as prefix, a name
    that starts with a required prefix and yields the id of the group,
    and a path with the extension [.h5]. *)
Theorem Watch_groups_well_tracked launchTime root req delay visits :
  well_tracked launchTime req
    (Watch launchTime (NewWatcher root req delay) visits).1.
Proof.
  apply Watch_well_tracked. split; [done|]. split; [done|].
  intros id g Hg. simpl in Hg. by rewrite lookup_empty in Hg.
Qed.

Lemma stable_now_true w v grp :
  stable_now w v grp = true →
  RequiredFound grp = Z.of_nat (length (required w))
  ∧ AnyChanged (visit_fs v) grp = Ok false.
Proof.
  unfold stable_now.
  destruct (Z.eqb_spec (Z.of_nat (length (required w))) (RequiredFound grp));
    [|done].
  destruct (AnyChanged (visit_fs v) grp) as [[|]|]; by try done.
Qed.

(** What a claiming call of the callback looks like, from a watcher
    whose groups are well tracked. *)
Lemma walkFn_claims launchTime req w v id :
  well_tracked launchTime req w →
  id ∉ ready w →
  id ∈ ready (watcher (walkFn launchTime w v)) →
  ∃ grp,
    found w !! id = Some grp
    ∧ getId (FileInfo_Name (visit_info v)) = Ok id
    ∧ RequiredFound grp = Z.of_nat (length req)
    ∧ AnyChanged (visit_fs v) grp = Ok false
    ∧ (processed (walkFn launchTime w v) = Some grp ∧ launchTime < LastModified grp
       ∨ processed (walkFn launchTime w v) = None ∧ LastModified grp = launchTime).
Proof.
  intros (Hreq & _ & Hgroups) Hnot Hin.
  destruct (walkFn_accepts launchTime w v)
    as [[Hsame _]|(id0 & grp & _ & _ & Hrequired & Hid & _ & Hgrp & Hrun)].
  { by rewrite Hsame in Hin. }
  rewrite Hrun in Hin |- *. simpl in Hin |- *.
  destruct (stable_now w v grp) eqn:Hstable; [|done].
  destruct Hgrp as [Hgrp|(_ & _ & ->)].
  2: { by rewrite (new_group_not_stable w v id0 _ _ Hrequired) in Hstable. }
  destruct (Hgroups id0 grp Hgrp) as (Hgid & Hmod & _).
  apply elem_of_union in Hin as [Hin%elem_of_singleton|Hin]; [|done].
  rewrite Hgid in Hin. subst id0.
  apply stable_now_true in Hstable as [Hcount Hchanged]. rewrite Hreq in Hcount.
  exists grp. repeat split; try done. simpl. unfold After.
  destruct (launchTime <? LastModified grp) eqn:Hlt; [left|right]; split; try done; lia.
Qed.

(** X22: a call of the callback that puts an id into the ready set does
    so for a group that was already filed under the id of the visited
    file, whose found-count equals the number of required prefixes and
    for which [AnyChanged] answered "no change"; the group is handed to
    [Process] unless its modification time is exactly the launch time,
    the one case in which a claimed group is skipped as too old. *)
Theorem Watch_claim_transition launchTime root req delay visits v id :
  id ∉ ready (Watch launchTime (NewWatcher root req delay) visits).1 →
  id ∈ ready (watcher (walkFn launchTime
                (Watch launchTime (NewWatcher root req delay) visits).1 v)) →
  ∃ grp,
    found (Watch launchTime (NewWatcher root req delay) visits).1 !! id = Some grp
    ∧ getId (FileInfo_Name (visit_info v)) = Ok id
    ∧ RequiredFound grp = Z.of_nat (length req)
    ∧ AnyChanged (visit_fs v) grp = Ok false
    ∧ (processed (walkFn launchTime
                   (Watch launchTime (NewWatcher root req delay) visits).1 v)
       = Some grp ∧ launchTime < LastModified grp
       ∨ processed (walkFn launchTime
                      (Watch launchTime (NewWatcher root req delay) visits).1 v)
         = None ∧ LastModified grp = launchTime).
Proof.
  apply walkFn_claims, Watch_groups_well_tracked.
Qed.

(** A file that was modified at the very instant the watcher was
    launched: its group is claimed and never processed. *)
Lemma Watch_claim_transition_witness :
  ∃ grp,
    found (Watch 200 (NewWatcher "/data" ["A"] 0) [first_file]).1 !! "1_2_3_4"
    = Some grp
    ∧ processed (walkFn 200 (Watch 200 (NewWatcher "/data" ["A"] 0) [first_file]).1
                   first_file) = None
    ∧ LastModified grp = 200.
Proof.
  destruct (Watch_claim_transition 200 "/data" ["A"] 0 [first_file] first_file
              "1_2_3_4") as (grp & Hgrp & _ & _ & _ & [[Hp _]|[Hp Hmod]]).
  - apply (bool_decide_unpack _). vm_compute. exact I.
  - apply (bool_decide_unpack _). vm_compute. exact I.
  - exfalso. vm_compute in Hp. discriminate Hp.
  - exists grp. split; [exact Hgrp|]. split; [exact Hp|exact Hmod].
Defined.

Lemma Watch_processed_groups launchTime req visits w g :
  well_tracked launchTime req w →
  (∀ id g, found w !! id = Some g → counts_files g) →
  g ∈ (Watch launchTime w visits).2 →
  RequiredFound g = Z.of_nat (length req)
  ∧ counts_files g
  ∧ launchTime < LastModified g
  ∧ ∀ name f, Files g !! name = Some f → registered req (Id g) name f.
Proof.
  revert w. induction visits as [|v visits IH]; intros w Hw Hcount.
  { simpl. by intros ?%elem_of_nil. }
  rewrite Watch_cons. simpl.
  pose proof (walkFn_well_tracked launchTime req w v Hw) as Hw'.
  pose proof (walkFn_counts_files launchTime w v Hcount) as Hcount'.
  destruct (processed (walkFn launchTime w v)) as [g0|] eqn:Hp;
    [|by apply IH].
  intros [->|Hg]%elem_of_cons; [|by apply (IH _ Hw' Hcount')].
  destruct (walkFn_processed launchTime w v g0) as [Hnot Hin]; [|done|].
  { intros id g Hg. by apply Hw. }
  destruct (walkFn_claims launchTime req w v (Id g0) Hw Hnot Hin)
    as (grp & Hgrp & _ & Hfound & _ & [[Hp' Hmod]|[Hp' _]]); [|congruence].
  assert (grp = g0) as -> by congruence.
  destruct Hw as (_ & _ & Hgroups).
  destruct (Hgroups _ _ Hgrp) as (Hgid & _ & Hfiles).
  split; [done|]. split; [by eapply Hcount|]. split; [done|].
  intros name f Hf. by apply Hfiles.
Qed.

(** X23: every group handed to [Process] has a found-count equal to the
    number of required prefixes, which is the number of its files, a
    modification time after the launch, and only files whose names
    start with a required prefix and yield the id of the group. *)
Theorem Watch_processes_complete_groups launchTime root req delay visits g :
  g ∈ (Watch launchTime (NewWatcher root req delay) visits).2 →
  RequiredFound g = Z.of_nat (length req)
  ∧ counts_files g
  ∧ launchTime < LastModified g
  ∧ ∀ name f, Files g !! name = Some f → registered req (Id g) name f.
Proof.
  apply Watch_processed_groups.
  - split; [done|]. split; [done|].
    intros id g' Hg. simpl in Hg. by rewrite lookup_empty in Hg.
  - intros id g' Hg. simpl in Hg. by rewrite lookup_empty in Hg.
Qed.

Lemma Watch_processes_complete_groups_witness :
  ∃ g, (Watch 100 (NewWatcher "/data" ["A"] 0) [first_file; first_file]).2 = [g]
       ∧ RequiredFound g = 1
       ∧ 100 < LastModified g.
Proof.
  eexists. split; [vm_compute; reflexivity|].
  edestruct (Watch_processes_complete_groups 100 "/data" ["A"] 0
               [first_file; first_file]) as (Hcount & _ & Hmod & _).
  { apply list_elem_of_In. vm_compute. left. reflexivity. }
  split; [exact Hcount|exact Hmod].
Defined.

(** ** Start-up, further *)

Section startup_further.
Context {RT : GoRuntime}.

(** X24: when the configuration is read, [main] builds the watcher on
    [cfg.WatchDir] as the file gives it, not on the package variable
    [watchDir] that [readConfig] has just set: a configuration without
    [WatchDir] leaves [watchDir] at [/data] and the watcher with the
    empty root.  The required prefixes are the configured ones, or the
    eleven built-in ones if none is configured, and the delay is the
    configured period, or 30 seconds if it is absent or zero. *)
Theorem main_settings (env : @Startup RT) arg0 file rest bb c dur :
  Args env = arg0 :: file :: rest →
  ReadFile env file = Ok bb →
  Unmarshal env bb = Ok c →
  (nonempty (cfg_Period c) = true → ParseDuration env (cfg_Period c) = Ok dur) →
  ∃ w g,
    main env = Watching w g
    ∧ root w = cfg_WatchDir c
    ∧ watchDir g = (if nonempty (cfg_WatchDir c) then cfg_WatchDir c else "/data")
    ∧ required w = (if (0 <? length (cfg_Required c))%nat then cfg_Required c
                    else default_required globals0)
    ∧ delay w = (if nonempty (cfg_Period c)
                 then if dur =? 0 then 30 * Second else dur
                 else 30 * Second)
    ∧ found w = ∅ ∧ ready w = ∅.
Proof.
  intros Hargs Hfile Hyaml Hdur. unfold main, readConfig.
  rewrite Hargs, Hfile, Hyaml.
  destruct (nonempty (cfg_Period c)) eqn:Hperiod.
  - rewrite (Hdur eq_refl). eexists _, _. split; [done|]. by repeat split.
  - eexists _, _. split; [done|]. by repeat split.
Qed.

End startup_further.

(** A configuration that names no directory, with a period of zero. *)
Lemma main_settings_witness :
  ∃ w g, main bare_startup = Watching w g
         ∧ root w = "" ∧ watchDir g = "/data"
         ∧ length (required w) = 11%nat ∧ delay w = 30 * Second.
Proof.
  destruct (main_settings bare_startup "viirs-watcher" "config.yaml" []
              "Period: 0s" bare_config 0)
    as (w & g & Hmain & Hroot & Hdir & Hreq & Hdelay & _).
  - reflexivity.
  - reflexivity.
  - reflexivity.
  - reflexivity.
  - exists w, g. split; [exact Hmain|]. split; [exact Hroot|].
    split; [exact Hdir|]. split; [by rewrite Hreq|exact Hdelay].
Defined.

(** Without a command-line argument [readConfig] fails with
    [noConfig]. *)
Lemma readConfig_errors_witness :
  noConfig = noConfig
  ∨ (∃ file, ReadFile {| Args := ["viirs-watcher"]; ReadFile := ReadFile broken_startup;
                         Unmarshal := Unmarshal broken_startup;
                         ParseDuration := ParseDuration broken_startup |} file
             = Err noConfig)
  ∨ (∃ bb, Unmarshal broken_startup bb = Err noConfig)
  ∨ (∃ d, ParseDuration broken_startup d = Err noConfig).
Proof.
  apply (readConfig_errors
           {| Args := ["viirs-watcher"]; ReadFile := ReadFile broken_startup;
              Unmarshal := Unmarshal broken_startup;
              ParseDuration := ParseDuration broken_startup |} globals0 noConfig).
  reflexivity.
Defined.

(** ** The night check and the seed context *)

Section processing_properties.
Context {RT : GoRuntime}.

Local Abbreviation Value := (Value (@float64 RT)).
Local Abbreviation Ctx := (gmap string Value).

(** X25: [hasNight] answers "no night data" only when [h5dump]
    succeeded, the query compiled, the dump parsed and every node the
    query selects reads [0] once trimmed; in particular it does so when
    the query selects no node at all.  Any failure on the way makes it
    answer "night data". *)
Theorem hasNight_false_iff (libs : NightLibs) (file : string) :
  hasNight libs file = false
  ↔ ∃ out path root,
      Command_Output H5DumpBinary ["-x"; "-A"; file] = (out, None)
      ∧ xp_Compile libs night_query = Ok path
      ∧ xp_Parse libs out = Ok root
      ∧ Forall (λ node, TrimSpace libs node = "0") (xp_Iter libs path root).
Proof.
  unfold hasNight.
  destruct (Command_Output H5DumpBinary ["-x"; "-A"; file]) as [out [e|]].
  { split; [done|]. by intros (? & ? & ? & [= _ ?] & _). }
  destruct (xp_Compile libs night_query) as [path|e].
  2: { split; [done|]. by intros (? & ? & ? & _ & ? & _). }
  destruct (xp_Parse libs out) as [root|e] eqn:Hparse.
  2: { split; [done|]. intros (? & ? & ? & [= <-] & _ & ? & _). congruence. }
  split.
  - intros Hnone. exists out, path, root. repeat split; try done.
    apply Forall_forall. intros node Hnode%list_elem_of_In.
    destruct (String.eqb (TrimSpace libs node) "0") eqn:Heq.
    { by apply String.eqb_eq. }
    assert (existsb (λ node, negb (String.eqb (TrimSpace libs node) "0"))
                    (xp_Iter libs path root) = true); [|congruence].
    apply existsb_exists. exists node. by rewrite Heq.
  - intros (out' & path' & root' & [= <-] & [= <-] & Hroot & Hall).
    assert (root' = root) as -> by congruence.
    destruct (existsb _ _) eqn:Hex; [|done].
    apply existsb_exists in Hex as (node & Hnode%list_elem_of_In & Hne).
    rewrite Forall_forall in Hall. rewrite (Hall node Hnode) in Hne. done.
Qed.

End processing_properties.

(** *** Base names *)

Lemma length_append s1 s2 :
  String.length (s1 +:+ s2) = (String.length s1 + String.length s2)%nat.
Proof.
  induction s1 as [|c s1 IH]; [done|]. rewrite append_cons. simpl. by rewrite IH.
Qed.

Lemma substring_all s : substring 0 (String.length s) s = s.
Proof. induction s as [|c s IH]; simpl; [done|]. by rewrite IH. Qed.

Lemma substring_drop pre e :
  substring (String.length pre) (String.length e) (pre +:+ e) = e.
Proof.
  induction pre as [|c pre IH]; [apply substring_all|].
  rewrite append_cons. simpl. apply IH.
Qed.

Lemma substring_take pre e :
  substring 0 (String.length pre) (pre +:+ e) = pre.
Proof.
  induction pre as [|c pre IH]; [by destruct e|].
  rewrite append_cons. simpl. by rewrite IH.
Qed.

Lemma TrimSuffix_append pre e : TrimSuffix (pre +:+ e) e = pre.
Proof.
  unfold TrimSuffix, HasSuffix. rewrite length_append.
  replace (String.length pre + String.length e - String.length e)%nat
    with (String.length pre) by lia.
  rewrite substring_drop, String.eqb_refl, substring_take.
  by destruct (_ <=? _)%nat eqn:Hle; [|apply Nat.leb_gt in Hle; lia].
Qed.

(** The extension is a suffix of the path. *)
Lemma Ext_from_suffix path cand :
  Ext_from cand path = cand ∨ ∃ pre, path = pre +:+ Ext_from cand path.
Proof.
  revert cand. induction path as [|c path IH]; intros cand; simpl; [by left|].
  destruct (Ascii.eqb c "/").
  { right. destruct (IH "") as [->|[pre Hpre]].
    - exists (String c path). by rewrite append_nil_r.
    - exists (String c pre). by rewrite append_cons, <- Hpre. }
  destruct (Ascii.eqb c ".").
  { right. destruct (IH (String c path)) as [->|[pre Hpre]].
    - by exists "".
    - exists (String c pre). by rewrite append_cons, <- Hpre. }
  destruct (IH cand) as [->|[pre Hpre]]; [by left|].
  right. exists (String c pre). by rewrite append_cons, <- Hpre.
Qed.

(** X26: the base name [Process] puts into the context under
    [<prefix>_Name] is the file name without its extension: putting the
    extension back gives the file name. *)
Theorem TrimSuffix_Ext name :
  TrimSuffix name (Ext name) +:+ Ext name = name.
Proof.
  unfold Ext. destruct (Ext_from_suffix name "") as [->|[pre Hpre]].
  - rewrite <- (append_nil_r name) at 1.
    by rewrite TrimSuffix_append, append_nil_r.
  - rewrite Hpre at 1. by rewrite TrimSuffix_append.
Qed.

Example base_names :
  map (λ name, TrimSuffix name (Ext name))
      ["SVM10_npp_d20130101.h5"; "archive.tar.gz"; "README"; ".profile"]
  = ["SVM10_npp_d20130101"; "archive.tar"; "README"; ""].
Proof. vm_compute. reflexivity. Qed.

(** *** The seed context *)

Lemma name_key_ne p q : name_field q → p +:+ "_Name" ≠ q.
Proof.
  intros Hq <-. unfold name_field in Hq. rewrite chars_app in Hq.
  apply Forall_app in Hq as [_ Hq]. by apply Forall_cons in Hq as [[? _] _].
Qed.

Lemma name_key_inj p q : p +:+ "_Name" = q +:+ "_Name" → p = q.
Proof.
  intros Heq. apply (f_equal chars) in Heq. rewrite !chars_app in Heq.
  apply app_inv_tail in Heq. apply (f_equal string_of_list_ascii) in Heq.
  unfold chars in Heq. by rewrite !string_of_list_ascii_of_string in Heq.
Qed.

Section seed_properties.
Context {RT : GoRuntime}.

Local Abbreviation Value := (Value (@float64 RT)).
Local Abbreviation Ctx := (gmap string Value).

Lemma seed_file_other (c : Ctx) f k :
  File_Prefix f ≠ k → File_Prefix f +:+ "_Name" ≠ k →
  seed_file c f !! k = c !! k.
Proof.
  intros Hp Hn. unfold seed_file. by rewrite !lookup_insert_ne.
Qed.

Lemma seed_fold_other files (c : Ctx) k :
  Forall (λ f, File_Prefix f ≠ k ∧ File_Prefix f +:+ "_Name" ≠ k) files →
  fold_left seed_file files c !! k = c !! k.
Proof.
  intros Hfiles. revert c.
  induction Hfiles as [|f files [Hp Hn] _ IH]; intros c; simpl; [done|].
  by rewrite IH, seed_file_other.
Qed.

Lemma seed_fold_keys files (c : Ctx) k :
  is_Some (fold_left seed_file files c !! k) →
  is_Some (c !! k)
  ∨ ∃ f, f ∈ files ∧ (k = File_Prefix f ∨ k = File_Prefix f +:+ "_Name").
Proof.
  revert c. induction files as [|f files IH]; intros c; simpl; [by left|].
  intros [Hc|(f' & Hf' & Hk)]%IH.
  - unfold seed_file in Hc.
    destruct (decide (File_Prefix f +:+ "_Name" = k)) as [<-|Hn].
    { right. exists f. split; [by left|by right]. }
    rewrite lookup_insert_ne in Hc by done.
    destruct (decide (File_Prefix f = k)) as [<-|Hp].
    { right. exists f. split; [by left|by left]. }
    rewrite lookup_insert_ne in Hc by done. by left.
  - right. exists f'. split; [by right|done].
Qed.

(** X27: the context [Process] builds, in whatever order it visits the
    files.  It has no keys but [Id], [Version], [OutputDir] and, for
    each file, the prefix and the prefix followed by [_Name].  If no
    two files share a prefix (and prefixes hold no underscore, as the
    first field of a name does), each file has its full path under its
    prefix and its name without the extension under [<prefix>_Name];
    and if no prefix is [Id], [Version] or [OutputDir], these three
    hold the id of the group, the version and the output directory. *)
Theorem seed_context_spec (g : @Globals RT) (fg : FileGroup) (files : list File) :
  Forall (λ f, name_field (File_Prefix f)) files →
  (∀ k, is_Some (seed_context g fg files !! k) →
        k ∈ ["Id"; "Version"; "OutputDir"]
        ∨ ∃ f, f ∈ files ∧ (k = File_Prefix f ∨ k = File_Prefix f +:+ "_Name"))
  ∧ (NoDup (File_Prefix <$> files) →
     ∀ f, f ∈ files →
       seed_context g fg files !! File_Prefix f = Some (VString (File_Fullpath f))
       ∧ seed_context g fg files !! (File_Prefix f +:+ "_Name")
         = Some (VString (TrimSuffix (File_Name f) (Ext (File_Name f)))))
  ∧ (Forall (λ f, File_Prefix f ∉ ["Id"; "Version"; "OutputDir"]) files →
     seed_context g fg files !! "Id" = Some (VString (Id fg))
     ∧ seed_context g fg files !! "Version" = Some (VString (version g))
     ∧ seed_context g fg files !! "OutputDir" = Some (VString (OutputDir g))).
Proof.
  intros Hfields. unfold seed_context. split; [|split].
  - intros k [Hk|Hk]%seed_fold_keys; [left|by right].
    destruct (decide (k = "OutputDir")) as [->|?]; [set_solver|].
    rewrite lookup_insert_ne in Hk by done.
    destruct (decide (k = "Version")) as [->|?]; [set_solver|].
    rewrite lookup_insert_ne in Hk by done.
    destruct (decide (k = "Id")) as [->|?]; [set_solver|].
    rewrite lookup_insert_ne, lookup_empty in Hk by done. by destruct Hk.
  - intros Hnodup f Hf.
    apply list_elem_of_split in Hf as (l1 & l2 & ->).
    rewrite fmap_app, fmap_cons in Hnodup.
    apply NoDup_app in Hnodup as (_ & _ & [Hnotin _]%NoDup_cons).
    apply Forall_app in Hfields as [_ [Hf Hl2]%Forall_cons].
    assert (Forall (λ f', File_Prefix f' ≠ File_Prefix f
                          ∧ File_Prefix f' +:+ "_Name" ≠ File_Prefix f) l2) as H1.
    { apply Forall_forall. intros f' Hf'. split.
      - intros Heq. apply Hnotin. rewrite <- Heq. by apply list_elem_of_fmap_2.
      - by apply name_key_ne. }
    assert (Forall (λ f', File_Prefix f' ≠ File_Prefix f +:+ "_Name"
                          ∧ File_Prefix f' +:+ "_Name" ≠ File_Prefix f +:+ "_Name")
                   l2) as H2.
    { apply Forall_forall. intros f' Hf'. split.
      - intros Heq. rewrite Forall_forall in Hl2.
        by apply (name_key_ne (File_Prefix f) (File_Prefix f')); [apply Hl2|].
      - intros Heq%name_key_inj. apply Hnotin. rewrite <- Heq.
        by apply list_elem_of_fmap_2. }
    rewrite fold_left_app. simpl.
    rewrite !seed_fold_other by done. unfold seed_file. split.
    + rewrite lookup_insert_ne by (by apply name_key_ne).
      apply lookup_insert_eq.
    + apply lookup_insert_eq.
  - intros Hreserved.
    assert (∀ k, k ∈ ["Id"; "Version"; "OutputDir"] →
                 Forall (λ f, File_Prefix f ≠ k ∧ File_Prefix f +:+ "_Name" ≠ k)
                        files) as Hother.
    { intros k Hk. apply Forall_forall. intros f Hf.
      rewrite Forall_forall in Hreserved. split.
      - intros Heq. apply (Hreserved f Hf). by rewrite Heq.
      - apply name_key_ne.
        repeat (apply elem_of_cons in Hk as [->|Hk];
                [repeat constructor; discriminate|]).
        by apply elem_of_nil in Hk. }
    rewrite !seed_fold_other by (apply Hother; set_solver).
    split; [|split].
    + rewrite !lookup_insert_ne by done. apply lookup_insert_eq.
    + rewrite lookup_insert_ne by done. apply lookup_insert_eq.
    + apply lookup_insert_eq.
Qed.

End seed_properties.

Lemma seed_context_spec_witness :
  seed_context globals0
    {| Files := ∅; LastModified := 200; Path := "/data/"; Id := "1_2_3_4";
       RequiredFound := 2; HasNight := false |} [file_B; file_A]
  = {[ "Id" := VString "1_2_3_4"; "Version" := VString "v2.1";
       "OutputDir" := VString "/output";
       "A" := VString "/data/A_1_2_3_4_x.h5"; "A_Name" := VString "A_1_2_3_4_x";
       "B" := VString "/data/B_1_2_3_4_x.h5"; "B_Name" := VString "B_1_2_3_4_x" ]}
  ∧ seed_context globals0
      {| Files := ∅; LastModified := 200; Path := "/data/"; Id := "1_2_3_4";
         RequiredFound := 2; HasNight := false |} [file_B; file_A] !! "A_Name"
    = Some (VString "A_1_2_3_4_x").
Proof.
  split; [reflexivity|].
  destruct (seed_context_spec globals0
              {| Files := ∅; LastModified := 200; Path := "/data/"; Id := "1_2_3_4";
                 RequiredFound := 2; HasNight := false |} [file_B; file_A])
    as (_ & Hfiles & _).
  - repeat constructor; discriminate.
  - destruct (Hfiles ltac:(repeat constructor; set_solver) file_A) as [_ Hname].
    + apply list_elem_of_In. right. left. reflexivity.
    + exact Hname.
Defined.

(** ** Further runs on the reference runtime *)

(** Steps [true], [false], [echo]: the third never runs. *)
Lemma exec_steps_stops_at_first_failure_witness :
  exec_steps [true_step; false_step; echo_step] ∅
  = (∅, {| spawned := [("true", []); ("false", [])];
           ret := Return (Some "exit status 1") (String (ascii_of 10) "") |}).
Proof.
  apply (exec_steps_stops_at_first_failure [true_step] [echo_step] false_step
           ∅ ∅ ∅
           {| spawned := [("true", [])]; ret := Return None "" |}
           {| spawned := [("false", [])];
              ret := Return (Some "exit status 1") (String (ascii_of 10) "") |} "").
  - reflexivity.
  - reflexivity.
  - reflexivity.
  - discriminate.
Defined.

(** [echo done] prints a line; the run returns the empty text. *)
Lemma Pipeline_Exec_success_text_witness :
  match ret (Pipeline_Exec {| Pipeline_Variables := []; Pipeline_Steps := [echo_step] |}
                           ∅).2 with
  | Return None res => res = ""
  | _ => False
  end.
Proof.
  change ("" = "").
  apply (Pipeline_Exec_success_text
           {| Pipeline_Variables := []; Pipeline_Steps := [echo_step] |} ∅ "").
  reflexivity.
Defined.

(** On the context of a file group, where [Id] is a string: [X] is
    written before [Bad], which asks for a field of [Id], fails, and
    stays written. *)
Lemma Pipeline_EvalVariables_error_keeps_writes_witness :
  Pipeline_Exec failing_pipeline {["Id" := VString "g"; "X" := VInt 1]}
  = ({["Id" := VString "g"; "X" := VInt 2]},
     {| spawned := []; ret := Return (Some "can't evaluate field x") "" |}).
Proof.
  refine (proj1 (proj2 (Pipeline_EvalVariables_error_keeps_writes failing_pipeline
                          {["Id" := VString "g"; "X" := VInt 1]}
                          {["Id" := VString "g"; "X" := VInt 2]}
                          [var "X" (VInt 2)] failing_var [] "can't evaluate field x"
                          _ _ _))); reflexivity.
Defined.

(** [B = ((.A))] after [A = 7], as pipeline variables: [B] is 7. *)
Lemma Pipeline_EvalVariables_sees_earlier_witness :
  ∃ c1, eval_shared [(Var_Prepare (var "A" (VString "7"))).1] {["A" := VInt 5]}
        = (c1, None)
        ∧ Var_Eval (Var_Prepare (var "B" (VString "((.A))"))).1 c1 = Ok (VInt 7).
Proof.
  destruct (Pipeline_EvalVariables_sees_earlier
              {| Pipeline_Variables := shadowing_vars; Pipeline_Steps := [] |}
              {["A" := VInt 5]} {["A" := VInt 7; "B" := VInt 7]}
              [(Var_Prepare (var "A" (VString "7"))).1]
              (Var_Prepare (var "B" (VString "((.A))"))).1 [])
    as (_ & c1 & val & Hpre & _ & Hval & _).
  - reflexivity.
  - reflexivity.
  - exists c1. split; [exact Hpre|].
    assert (eval_shared [(Var_Prepare (var "A" (VString "7"))).1] {["A" := VInt 5]}
            = ({["A" := VInt 7]}, None)) as Hrun by reflexivity.
    rewrite Hrun in Hpre. injection Hpre as <-. reflexivity.
Defined.

(** The pipeline of the leakage scenario compiles, and runs without a
    panic. *)
Lemma Pipeline_Prepare_sound_witness :
  ret (Pipeline_Exec
         (Pipeline_Prepare
            {| Pipeline_Variables := [var "X" (VInt 1)];
               Pipeline_Steps :=
                 [step "first" [var "X" (VInt 2); var "Y" (VInt 9)]
                       "echo ((.X)) ((.Y))"] |}).1 ∅).2
  ≠ Panic.
Proof.
  destruct (Pipeline_Prepare_sound
              {| Pipeline_Variables := [var "X" (VInt 1)];
                 Pipeline_Steps :=
                   [step "first" [var "X" (VInt 2); var "Y" (VInt 9)]
                         "echo ((.X)) ((.Y))"] |}
              (Pipeline_Prepare
                 {| Pipeline_Variables := [var "X" (VInt 1)];
                    Pipeline_Steps :=
                      [step "first" [var "X" (VInt 2); var "Y" (VInt 9)]
                            "echo ((.X)) ((.Y))"] |}).1
              None) as (_ & _ & _ & Hrun).
  - reflexivity.
  - apply Hrun. reflexivity.
Defined.

(** A step that only declares [Y] leaves [X = 1] alone. *)
Lemma Step_new_keys_isolated_witness :
  (Step_Exec fresh_step {["X" := VInt 1]}).1 = {["X" := VInt 1]}.
Proof.
  refine (proj2 (Step_new_keys_isolated fresh_step {["X" := VInt 1]}
                   {["X" := VInt 1]} {["X" := VInt 1; "Y" := VInt 9]} _ _)).
  - reflexivity.
  - intros v Hv. change (Step_Variables fresh_step) with [var "Y" (VInt 9)] in Hv.
    apply list_elem_of_singleton in Hv as ->. reflexivity.
Defined.

(** A step whose command is one space fails with [exec: no command]. *)
Lemma Step_Exec_blank_command_witness :
  Step_Exec blank_step ∅
  = (∅, {| spawned := [("", [])]; ret := Return (Some "exec: no command") "" |}).
Proof.
  apply (Step_Exec_blank_command blank_step ∅ ∅ ∅ [Text " "] " ").
  - reflexivity.
  - reflexivity.
  - reflexivity.
  - repeat constructor.
  - reflexivity.
Defined.
